(** * tixte_exporter: a shallow embedding of the resumable download engine

    The development follows [tixte_exporter.py]: the path helpers of
    [os.path] the script relies on, the completion ledger
    ([load_downloaded] / [save_downloaded]), the URL builder
    ([construct_url]), the retrying fetcher ([download_file]) and the
    per-row body of the batch loop of [main].

    Conventions of the model.
    - A Python [str] is a list of characters; a character is a code point
      in the range 0..255 ([ascii]).  Paths follow [posixpath].
    - The file system is a finite map from resolved node paths (lists of
      component names below the root) to nodes; there are no symbolic links
      and no permissions.  The ledger file [downloaded.log] is kept as a
      separate component of the world, so runs in which a save path
      designates the ledger file itself are not covered.
    - Python floats (delays, speeds, clock readings) are exact rationals.
    - The network, the random generator and [glob.glob] are oracles of the
      environment; the detailed log and the terminal display are not
      modelled. *)

From Stdlib Require Import Ascii QArith.
From Stdlib Require String.
From stdpp Require Import base option list gmap strings.

Local Open Scope Z_scope.
Local Open Scope list_scope.

(** ** Text *)

Abbreviation text := (list ascii).

Definition str (s : String.string) : text := String.list_ascii_of_string s.
Arguments str s%_string.

Definition LF : ascii := Ascii.ascii_of_nat 10.
Definition CR : ascii := Ascii.ascii_of_nat 13.
Definition sep : ascii := "/"%char.

Definition ascii_eqb (a b : ascii) : bool := bool_decide (a = b).
Arguments ascii_eqb : simpl never.

(** [str.isspace] for one character, on the code points 0..255: the
    controls 9..13 and 28..31, the space, NEL (133) and NBSP (160). *)
Definition isspace (c : ascii) : bool :=
  let n := nat_of_ascii c in
  ((9 <=? n)%nat && (n <=? 13)%nat)
  || ((28 <=? n)%nat && (n <=? 32)%nat)
  || (n =? 133)%nat || (n =? 160)%nat.

Fixpoint lstrip (s : text) : text :=
  match s with
  | [] => []
  | c :: r => if isspace c then lstrip r else s
  end.

Definition rstrip (s : text) : text := rev (lstrip (rev s)).

(** [s.strip()] *)
Definition strip (s : text) : text := rstrip (lstrip s).

(** [s.startswith(sep)] and [s.endswith(sep)] *)
Definition startswith_sep (s : text) : bool :=
  match s with
  | c :: _ => ascii_eqb c sep
  | [] => false
  end.

Definition endswith_sep (s : text) : bool := startswith_sep (rev s).

(** ** [posixpath] *)

(** [os.path.join(a, b)] *)
Definition path_join (a b : text) : text :=
  if startswith_sep b then b
  else if bool_decide (a = []) || endswith_sep a then a ++ b
  else a ++ sep :: b.

(** [(p[:i], p[i:])] for [i = p.rfind(sep) + 1]. *)
Fixpoint cut_at_last_sep (p : text) : text * text :=
  match p with
  | [] => ([], [])
  | c :: r =>
      let '(h, t) := cut_at_last_sep r in
      if ascii_eqb c sep then (c :: h, t)
      else match h with
           | [] => ([], c :: t)
           | _ :: _ => (c :: h, t)
           end
  end.

Fixpoint lstrip_sep (s : text) : text :=
  match s with
  | [] => []
  | c :: r => if ascii_eqb c sep then lstrip_sep r else s
  end.

(** [head.rstrip(sep)] *)
Definition rstrip_sep (s : text) : text := rev (lstrip_sep (rev s)).

(** [head != sep*len(head)] *)
Definition all_sep (s : text) : bool := forallb (fun c => ascii_eqb c sep) s.

(** [os.path.split(p)] *)
Definition path_split (p : text) : text * text :=
  let '(head, tail) := cut_at_last_sep p in
  let head' :=
    if negb (bool_decide (head = [])) && negb (all_sep head)
    then rstrip_sep head else head in
  (head', tail).

(** [os.path.dirname(p)] *)
Definition dirname (p : text) : text := fst (path_split p).

(** ** The completion ledger *)

(** Reading a text file opened with the default [newline=None]: the line
    ends CR LF and CR are translated to LF ([cr] records a pending CR). *)
Fixpoint universal_newlines (cr : bool) (s : text) : text :=
  match s with
  | [] => []
  | c :: r =>
      if ascii_eqb c LF then
        if cr then universal_newlines false r
        else LF :: universal_newlines false r
      else if ascii_eqb c CR then LF :: universal_newlines true r
      else c :: universal_newlines false r
  end.

(** The lines a file iterator yields: each keeps its terminating LF, the
    last one may lack it. *)
Fixpoint split_lines (s : text) : list text :=
  match s with
  | [] => []
  | c :: r =>
      if ascii_eqb c LF then [LF] :: split_lines r
      else match split_lines r with
           | [] => [[c]]
           | l :: ls => (c :: l) :: ls
           end
  end.

Definition file_lines (content : text) : list text :=
  split_lines (universal_newlines false content).

(** The body of the loop of [load_downloaded]. *)
Definition load_line (output_dir : text) (downloaded_files : gset text)
    (line : text) : gset text :=
  if negb (bool_decide (strip line = [])) then
    let '(_, filename) := path_split (strip line) in
    downloaded_files ∪ {[ path_join output_dir filename ]}
  else downloaded_files.

(** [load_downloaded(output_dir)]; the argument [log] is the content of
    [downloaded.log], [None] when the file does not exist. *)
Definition load_downloaded (output_dir : text) (log : option text) : gset text :=
  match log with
  | None => ∅
  | Some content => foldl (load_line output_dir) ∅ (file_lines content)
  end.

(** [save_downloaded(file_path)]: append mode creates the file. *)
Definition save_downloaded (file_path : text) (log : option text) : option text :=
  Some (default [] log ++ file_path ++ [LF]).

(** ** The URL builder *)

Definition construct_url (subdomain filename extension : text) : text :=
  str "https://us-east-1.tixte.net/uploads/" ++ subdomain ++ str "/"
    ++ filename ++ str "." ++ extension.

(** ** The file system *)

Inductive node : Type :=
  | File (content : text)
  | Dir.

(** A node is addressed by the list of component names leading to it from
    the root; the root itself is [[]] and is always a directory. *)
Abbreviation node_path := (list text).
Abbreviation nodes := (gmap (list text) node).

Definition node_at (fs : nodes) (k : node_path) : option node :=
  match k with
  | [] => Some Dir
  | _ :: _ => fs !! k
  end.

Definition is_dir (fs : nodes) (k : node_path) : bool :=
  match node_at fs k with
  | Some Dir => true
  | _ => false
  end.

(** [p.split(sep)]: the components of a path, empty ones included. *)
Fixpoint components (p : text) : list text :=
  match p with
  | [] => [[]]
  | c :: r =>
      if ascii_eqb c sep then [] :: components r
      else match components r with
           | [] => [[c]]
           | l :: ls => (c :: l) :: ls
           end
  end.

(** One step of path resolution from the directory [cur]: an empty
    component and [.] stay, [..] goes to the parent. *)
Definition move (cur : node_path) (c : text) : node_path :=
  if bool_decide (c = []) || bool_decide (c = str ".") then cur
  else if bool_decide (c = str "..") then removelast cur
  else cur ++ [c].

(** Resolution of a list of components: every node a component is looked
    up in has to be a directory. *)
Fixpoint walk (fs : nodes) (cur : node_path) (comps : list text)
    : option node_path :=
  match comps with
  | [] => Some cur
  | c :: rest => if is_dir fs cur then walk fs (move cur c) rest else None
  end.

(** Resolution starts at the root for an absolute path and at the working
    directory [cwd] otherwise. *)
Definition start (cwd : node_path) (p : text) : node_path :=
  if startswith_sep p then [] else cwd.

Definition resolve (cwd : node_path) (fs : nodes) (p : text)
    : option node_path :=
  match p with
  | [] => None
  | _ :: _ => walk fs (start cwd p) (components p)
  end.

(** [os.path.exists(p)] *)
Definition path_exists (cwd : node_path) (fs : nodes) (p : text) : bool :=
  match resolve cwd fs p with
  | Some k => bool_decide (is_Some (node_at fs k))
  | None => false
  end.

(** The content of the regular file at [p], if there is one. *)
Definition read_file (cwd : node_path) (fs : nodes) (p : text) : option text :=
  match resolve cwd fs p with
  | Some k => match node_at fs k with
              | Some (File c) => Some c
              | _ => None
              end
  | None => None
  end.

(** [os.makedirs(p, exist_ok=True)] along the components of [p]: missing
    directories are created, a regular file on the way is an error. *)
Fixpoint mkdirs (fs : nodes) (cur : node_path) (comps : list text)
    : option nodes :=
  match comps with
  | [] => Some fs
  | c :: rest =>
      if is_dir fs cur then
        let nxt := move cur c in
        match node_at fs nxt with
        | Some Dir => mkdirs fs nxt rest
        | Some (File _) => None
        | None => mkdirs (<[nxt := Dir]> fs) nxt rest
        end
      else None
  end.

Definition makedirs (cwd : node_path) (fs : nodes) (p : text) : option nodes :=
  match p with
  | [] => None
  | _ :: _ => mkdirs fs (start cwd p) (components p)
  end.

(** The last element of a list and what precedes it. *)
Fixpoint unsnoc {A} (l : list A) : option (list A * A) :=
  match l with
  | [] => None
  | x :: r => match unsnoc r with
              | None => Some ([], x)
              | Some (i, y) => Some (x :: i, y)
              end
  end.

Definition plain_name (c : text) : bool :=
  negb (bool_decide (c = []) || bool_decide (c = str ".")
        || bool_decide (c = str "..")).

(** [open(p, 'wb')]: the directory of [p] has to exist, [p] must not name
    a directory; the file is created or truncated.  The result is the node
    the handle writes to, and the new file system. *)
Definition open_wb (cwd : node_path) (fs : nodes) (p : text)
    : option (node_path * nodes) :=
  match unsnoc (components p) with
  | None => None
  | Some (dirs, name) =>
      match p, walk fs (start cwd p) dirs with
      | _ :: _, Some d =>
          if is_dir fs d && plain_name name then
            match node_at fs (d ++ [name]) with
            | Some Dir => None
            | _ => Some (d ++ [name], <[d ++ [name] := File []]> fs)
            end
          else None
      | _, _ => None
      end
  end.

(** [f.write(chunk)] on the handle [k]. *)
Definition write_chunk (fs : nodes) (k : node_path) (chunk : text) : nodes :=
  match fs !! k with
  | Some (File c) => <[k := File (c ++ chunk)]> fs
  | _ => fs
  end.

(** ** The environment and the world *)

(** What one GET produces.  [body] lists the chunks [iter_content] yields,
    each with the reading of [time.time() - start_time] taken after it;
    [body_complete] is [false] when the stream breaks after them.
    [content_length_ok] tells whether the [content-length] header parses
    as an integer. *)
Record response : Type := {
  status_code : Z;
  content_length_ok : bool;
  body : list (text * Q);
  body_complete : bool
}.

Inductive reply : Type :=
  | ConnectionFailed            (* [requests.get] raises *)
  | Replied (r : response).

Record environment : Type := {
  env_cwd : node_path;
  (** the reply to the n-th GET of the run, for the URL it asks *)
  http_get : nat -> text -> reply;
  (** the 53 random bits behind the n-th call of [random.random()] *)
  random_bits : nat -> N;
  (** [glob.glob(pattern, recursive=True)] *)
  glob : nodes -> text -> list text
}.

Record world : Type := {
  w_fs : nodes;
  w_ledger : option text;        (* content of downloaded.log *)
  w_requests : nat;              (* GETs issued so far *)
  w_draws : nat;                 (* random numbers drawn so far *)
  w_sleeps : list Q              (* arguments of time.sleep, latest first *)
}.

Definition set_fs (w : world) (fs : nodes) : world :=
  {| w_fs := fs; w_ledger := w_ledger w; w_requests := w_requests w;
     w_draws := w_draws w; w_sleeps := w_sleeps w |}.

Definition set_ledger (w : world) (l : option text) : world :=
  {| w_fs := w_fs w; w_ledger := l; w_requests := w_requests w;
     w_draws := w_draws w; w_sleeps := w_sleeps w |}.

Inductive exn : Type :=
  | ValueError     (* time.sleep of a negative duration *)
  | OSError.       (* os.makedirs *)

Inductive outcome (A : Type) : Type :=
  | Returns (a : A) (w : world)
  | Raises (e : exn) (w : world).
Arguments Returns {A} a w.
Arguments Raises {A} e w.

Definition Qltb (x y : Q) : bool := negb (Qle_bool y x).

(** [random.random()]: a multiple of 2^-53 in [0, 1). *)
Definition random_random (env : environment) (w : world) : Q * world :=
  (Qmake (Z.of_N (random_bits env (w_draws w) mod 2 ^ 53)) (2 ^ 53),
   {| w_fs := w_fs w; w_ledger := w_ledger w; w_requests := w_requests w;
      w_draws := S (w_draws w); w_sleeps := w_sleeps w |}).

(** [random.uniform(a, b)] is [a + (b - a) * random()]. *)
Definition random_uniform (env : environment) (a b : Q) (w : world)
    : Q * world :=
  let '(u, w) := random_random env w in
  ((a + (b - a) * u)%Q, w).

(** [time.sleep(secs)] *)
Definition time_sleep (secs : Q) (w : world) : outcome unit :=
  if Qltb secs 0 then Raises ValueError w
  else Returns tt
         {| w_fs := w_fs w; w_ledger := w_ledger w;
            w_requests := w_requests w; w_draws := w_draws w;
            w_sleeps := secs :: w_sleeps w |}.

(** [requests.get(url, ...)] *)
Definition requests_get (env : environment) (url : text) (w : world)
    : reply * world :=
  (http_get env (w_requests w) url,
   {| w_fs := w_fs w; w_ledger := w_ledger w; w_requests := S (w_requests w);
      w_draws := w_draws w; w_sleeps := w_sleeps w |}).

(** ** The retrying fetcher *)

(** The loop over [response.iter_content] inside [with open(...) as f]. *)
Fixpoint stream_chunks (k : node_path) (chunks : list (text * Q))
    (fs : nodes) (bytes_downloaded : Z) (final_speed : Q)
    : nodes * Z * Q :=
  match chunks with
  | [] => (fs, bytes_downloaded, final_speed)
  | (chunk, elapsed) :: rest =>
      if bool_decide (chunk = []) then
        stream_chunks k rest fs bytes_downloaded final_speed
      else
        let fs := write_chunk fs k chunk in
        let bytes_downloaded := bytes_downloaded + Z.of_nat (length chunk) in
        let final_speed :=
          if Qltb 0 elapsed then (inject_Z bytes_downloaded / elapsed)%Q
          else final_speed in
        stream_chunks k rest fs bytes_downloaded final_speed
  end.

(** The [try] block of one attempt.  The boolean tells whether the block
    reached [return True, final_speed]; every exception is caught by one of
    the two handlers, which only log. *)
Definition try_download (env : environment) (url save_path : text)
    (final_speed : Q) (w : world) : bool * Q * world :=
  let '(rep, w) := requests_get env url w in
  match rep with
  | ConnectionFailed => (false, final_speed, w)
  | Replied r =>
      if status_code r =? 200 then
        if content_length_ok r then
          match open_wb (env_cwd env) (w_fs w) save_path with
          | None => (false, final_speed, w)
          | Some (k, fs) =>
              let '(fs, _, final_speed) :=
                stream_chunks k (body r) fs 0 final_speed in
              (body_complete r, final_speed, set_fs w fs)
          end
        else (false, final_speed, w)
      else (false, final_speed, w)
  end.

(** The [while attempt <= max_retries] loop; [fuel] bounds the number of
    iterations and [None] means that it ran out. *)
Fixpoint download_loop (fuel : nat) (env : environment) (url save_path : text)
    (max_retries : Z) (base_delay jitter : Q) (attempt : Z) (final_speed : Q)
    (w : world) : option (outcome (bool * Q)) :=
  if attempt <=? max_retries then
    match fuel with
    | O => None
    | S fuel =>
        let '(returned, final_speed, w) :=
          try_download env url save_path final_speed w in
        if returned then Some (Returns (true, final_speed) w)
        else
          let attempt := attempt + 1 in
          if attempt <=? max_retries then
            let '(j, w) := random_uniform env 0 jitter w in
            let sleep_time := (base_delay * inject_Z (2 ^ attempt) + j)%Q in
            match time_sleep sleep_time w with
            | Raises e w => Some (Raises e w)
            | Returns _ w =>
                download_loop fuel env url save_path max_retries base_delay
                  jitter attempt final_speed w
            end
          else
            download_loop fuel env url save_path max_retries base_delay
              jitter attempt final_speed w
    end
  else Some (Returns (false, 0%Q) w).

(** [download_file(url, save_path, headers, max_retries, base_delay, jitter, ...)] *)
Definition download_file (env : environment) (url save_path : text)
    (max_retries : Z) (base_delay jitter : Q) (w : world)
    : option (outcome (bool * Q)) :=
  download_loop (Z.to_nat (max_retries + 1)) env url save_path max_retries
    base_delay jitter 0 0%Q w.

(** ** The batch driver *)

Record arguments : Type := {
  arg_output : text;
  arg_delay : Q;
  arg_jitter : Q;
  arg_max_retries : Z;
  arg_dry_run : bool
}.

(** The two keys of [config.json] the driver reads; [None] is an absent
    key. *)
Record config : Type := {
  local_check_dir : option text;
  cfg_subdomain : option text
}.

(** A row of the manifest; [Subdomain] is [None] when the row has no such
    field. *)
Record row : Type := {
  Filename : text;
  Extension : text;
  Subdomain : option text
}.

Record summary : Type := {
  downloaded_count : nat;
  skipped_logged : nat;
  skipped_exists_output : nat;
  skipped_exists_local : nat;
  skipped_dry_run : nat
}.

(** Truth value of an optional string: [None] and [''] are false. *)
Definition truthy (o : option text) : bool :=
  match o with
  | Some (_ :: _) => true
  | _ => false
  end.

(** [a or b] *)
Definition py_or (a b : option text) : option text :=
  if truthy a then a else b.

(** [row.get('Subdomain') or default_subdomain or ''] *)
Definition row_subdomain (cfg : config) (r : row) : text :=
  default [] (py_or (py_or (Subdomain r) (cfg_subdomain cfg)) (Some [])).

Definition save_name (r : row) : text := Filename r ++ str "." ++ Extension r.

Definition save_path (args : arguments) (r : row) : text :=
  path_join (arg_output args) (save_name r).

Definition row_url (cfg : config) (r : row) : text :=
  construct_url (row_subdomain cfg r) (Filename r) (Extension r).

(** [file_exists_in_directory(directory, filename)] *)
Definition file_exists_in_directory (env : environment) (fs : nodes)
    (directory filename : text) : bool :=
  let pattern := path_join (path_join directory (str "**")) filename in
  let matches := glob env fs pattern in
  bool_decide (0 < length matches)%nat.

Definition count_logged (c : summary) : summary :=
  {| downloaded_count := downloaded_count c;
     skipped_logged := S (skipped_logged c);
     skipped_exists_output := skipped_exists_output c;
     skipped_exists_local := skipped_exists_local c;
     skipped_dry_run := skipped_dry_run c |}.

Definition count_exists_output (c : summary) : summary :=
  {| downloaded_count := downloaded_count c;
     skipped_logged := skipped_logged c;
     skipped_exists_output := S (skipped_exists_output c);
     skipped_exists_local := skipped_exists_local c;
     skipped_dry_run := skipped_dry_run c |}.

Definition count_exists_local (c : summary) : summary :=
  {| downloaded_count := downloaded_count c;
     skipped_logged := skipped_logged c;
     skipped_exists_output := skipped_exists_output c;
     skipped_exists_local := S (skipped_exists_local c);
     skipped_dry_run := skipped_dry_run c |}.

Definition count_dry_run (c : summary) : summary :=
  {| downloaded_count := downloaded_count c;
     skipped_logged := skipped_logged c;
     skipped_exists_output := skipped_exists_output c;
     skipped_exists_local := skipped_exists_local c;
     skipped_dry_run := S (skipped_dry_run c) |}.

Definition count_downloaded (c : summary) : summary :=
  {| downloaded_count := S (downloaded_count c);
     skipped_logged := skipped_logged c;
     skipped_exists_output := skipped_exists_output c;
     skipped_exists_local := skipped_exists_local c;
     skipped_dry_run := skipped_dry_run c |}.

(** What follows the call of [download_file] in the loop body. *)
Definition after_download (env : environment) (args : arguments)
    (r : row) (success : bool) (c : summary) (w : world) : outcome summary :=
  let '(c, w) :=
    if success then
      (count_downloaded c,
       set_ledger w (save_downloaded (save_path args r) (w_ledger w)))
    else (c, w) in
  let '(j, w) := random_uniform env 0 (arg_jitter args) w in
  let delay_time := (arg_delay args + j)%Q in
  match time_sleep delay_time w with
  | Raises e w => Raises e w
  | Returns _ w => Returns c w
  end.

(** The body of [for row in rows] in [main]; [downloaded] is the set
    [load_downloaded] returned at start-up. *)
Definition process_row (env : environment) (args : arguments) (cfg : config)
    (downloaded : gset text) (r : row) (c : summary) (w : world)
    : option (outcome summary) :=
  match makedirs (env_cwd env) (w_fs w) (dirname (save_path args r)) with
  | None => Some (Raises OSError w)
  | Some fs =>
      let w := set_fs w fs in
      if bool_decide (save_path args r ∈ downloaded) then
        Some (Returns (count_logged c) w)
      else if path_exists (env_cwd env) (w_fs w) (save_path args r) then
        Some (Returns (count_exists_output c) w)
      else if truthy (local_check_dir cfg)
              && file_exists_in_directory env (w_fs w)
                   (default [] (local_check_dir cfg)) (save_name r) then
        Some (Returns (count_exists_local c) w)
      else if arg_dry_run args then
        Some (Returns (count_dry_run c) w)
      else
        match download_file env (row_url cfg r) (save_path args r)
                (arg_max_retries args) (arg_delay args) (arg_jitter args) w with
        | None => None
        | Some (Raises e w) => Some (Raises e w)
        | Some (Returns (success, _) w) =>
            Some (after_download env args r success c w)
        end
  end.

(** The loop over the rows. *)
Fixpoint process_rows (env : environment) (args : arguments) (cfg : config)
    (downloaded : gset text) (rows : list row) (c : summary) (w : world)
    : option (outcome summary) :=
  match rows with
  | [] => Some (Returns c w)
  | r :: rest =>
      match process_row env args cfg downloaded r c w with
      | None => None
      | Some (Raises e w) => Some (Raises e w)
      | Some (Returns c w) => process_rows env args cfg downloaded rest c w
      end
  end.

Definition no_counts : summary :=
  {| downloaded_count := 0; skipped_logged := 0; skipped_exists_output := 0;
     skipped_exists_local := 0; skipped_dry_run := 0 |}.

(** [main] up to the summary: the output directory is created, the ledger
    is loaded once, then the rows are processed. *)
Definition main (env : environment) (args : arguments) (cfg : config)
    (rows : list row) (w : world) : option (outcome summary) :=
  match makedirs (env_cwd env) (w_fs w) (arg_output args) with
  | None => Some (Raises OSError w)
  | Some fs =>
      let w := set_fs w fs in
      let downloaded := load_downloaded (arg_output args) (w_ledger w) in
      process_rows env args cfg downloaded rows no_counts w
  end.

(** ** The reporter helpers *)

(** [add_log(message)], nested in [main]: the entry is appended to the
    buffer [log_messages], which keeps its last 20 entries; the entry is
    returned.  [timestamp] is what [time.strftime] gives; the copy of the
    message sent to the detailed log is not modelled. *)
Definition add_log (timestamp message : text) (log_messages : list text)
    : list text * text :=
  let log_entry := timestamp ++ str " " ++ message in
  let log_messages := log_messages ++ [log_entry] in
  let log_messages :=
    if (20 <? length log_messages)%nat then drop 1 log_messages
    else log_messages in
  (log_messages, log_entry).

Inductive speed_unit : Type :=
  | B_per_s
  | KB_per_s
  | MB_per_s.

(** [human_readable_speed(bytes_per_sec)]: the number that is printed and
    its unit; the rendering of the number with two decimals is left out. *)
Definition human_readable_speed (bytes_per_sec : Q) : Q * speed_unit :=
  if Qltb bytes_per_sec 1024 then (bytes_per_sec, B_per_s)
  else if Qltb bytes_per_sec (1024 * 1024) then
    ((bytes_per_sec / 1024)%Q, KB_per_s)
  else ((bytes_per_sec / (1024 * 1024))%Q, MB_per_s).

(** * Vocabulary of the properties *)

(** The log after further calls of [save_downloaded]. *)
Definition record_all (log : option text) (paths : list text) : option text :=
  foldl (fun l q => save_downloaded q l) log paths.

(** A log that is absent, empty, or ends with a line end: what
    [save_downloaded] alone produces. *)
Definition terminated (log : option text) : Prop :=
  match log with
  | None => True
  | Some c => c = [] \/ last c = Some LF
  end.

Definition same_kind (a b : node) : Prop :=
  match a, b with
  | Dir, Dir => True
  | File _, File _ => True
  | _, _ => False
  end.

(** [grows a b]: every node of [a] is a node of [b], of the same kind.
    Nothing in the program removes a node or changes its kind. *)
Definition grows (a b : nodes) : Prop :=
  forall k n, a !! k = Some n -> exists n', b !! k = Some n' /\ same_kind n n'.

Definition world_of {A} (o : outcome A) : world :=
  match o with
  | Returns _ w => w
  | Raises _ w => w
  end.

(** The attempt served by the [i]-th GET reaches the streaming phase on
    the file system [fs]: status 200, a [content-length] that parses, and
    a destination that can be opened. *)
Definition reaches_stream (env : environment) (url save_path : text)
    (fs : nodes) (i : nat) : bool :=
  match http_get env i url with
  | ConnectionFailed => false
  | Replied r =>
      (status_code r =? 200) && content_length_ok r
      && bool_decide (is_Some (open_wb (env_cwd env) fs save_path))
  end.

(** The bytes of the body of a reply. *)
Definition body_bytes (rep : reply) : text :=
  match rep with
  | ConnectionFailed => []
  | Replied r => concat (map fst (body r))
  end.

(** The value [random.uniform(a, b)] takes at the [n]-th draw. *)
Definition uniform_value (env : environment) (a b : Q) (n : nat) : Q :=
  (a + (b - a) * Qmake (Z.of_N (random_bits env n mod 2 ^ 53)) (2 ^ 53))%Q.

(** The exponential part of the back-off: [base_delay * (2 ** attempt)]. *)
Definition backoff (base_delay : Q) (attempt : Z) : Q :=
  (base_delay * inject_Z (2 ^ attempt))%Q.

Definition drawn (w : world) : world :=
  {| w_fs := w_fs w; w_ledger := w_ledger w; w_requests := w_requests w;
     w_draws := S (w_draws w); w_sleeps := w_sleeps w |}.

Definition slept (s : Q) (w : world) : world :=
  {| w_fs := w_fs w; w_ledger := w_ledger w; w_requests := w_requests w;
     w_draws := w_draws w; w_sleeps := s :: w_sleeps w |}.

(** The sleep that follows a failed attempt, [attempt] being the counter
    after its increment and [n] the index of the random draw. *)
Definition sleep_time (env : environment) (base_delay jitter : Q)
    (attempt : Z) (n : nat) : Q :=
  (backoff base_delay attempt + uniform_value env 0 jitter n)%Q.



(** The four skip checks of the loop body, on the file system [fs] that
    [os.makedirs] left. *)
Definition skipped (env : environment) (args : arguments) (cfg : config)
    (downloaded : gset text) (r : row) (fs : nodes) : bool :=
  bool_decide (save_path args r ∈ downloaded)
  || path_exists (env_cwd env) fs (save_path args r)
  || (truthy (local_check_dir cfg)
      && file_exists_in_directory env fs (default [] (local_check_dir cfg))
           (save_name r))
  || arg_dry_run args.

(** The call of the fetcher in the loop body. *)
Definition fetch (env : environment) (args : arguments) (cfg : config)
    (r : row) (w : world) : option (outcome (bool * Q)) :=
  download_file env (row_url cfg r) (save_path args r) (arg_max_retries args)
    (arg_delay args) (arg_jitter args) w.

(** The attempt served by the [i]-th GET runs to [return True]: it
    reaches the streaming phase and its stream is complete. *)
Definition attempt_succeeds (env : environment) (url save_path : text)
    (fs : nodes) (i : nat) : bool :=
  reaches_stream env url save_path fs i
  && match http_get env i url with
     | ConnectionFailed => false
     | Replied r => body_complete r
     end.

(** The rows counted as skipped, all four counters together. *)
Definition skip_total (c : summary) : nat :=
  (skipped_logged c + skipped_exists_output c + skipped_exists_local c
   + skipped_dry_run c)%nat.

(** The lines [save_downloaded] writes for a list of paths. *)
Definition log_lines (paths : list text) : text :=
  concat (map (fun q => q ++ [LF]) paths).



(** What a run of the loop has seen: no attempt before the last GET
    succeeded, and the run returns [True] exactly on a last GET that
    succeeded, whose body the destination then holds. *)
Definition first_success (env : environment) (url save_path : text)
    (w : world) (out : outcome (bool * Q)) : Prop :=
  let n := w_requests (world_of out) in
  match out with
  | Returns (true, _) w' =>
      (w_requests w < n)%nat
      /\ attempt_succeeds env url save_path (w_fs w) (n - 1) = true
      /\ (forall i, (w_requests w <= i < n - 1)%nat ->
            attempt_succeeds env url save_path (w_fs w) i = false)
      /\ read_file (env_cwd env) (w_fs w') save_path
         = Some (body_bytes (http_get env (n - 1) url))
  | _ =>
      forall i, (w_requests w <= i < n)%nat ->
        attempt_succeeds env url save_path (w_fs w) i = false
  end.

(** The buffer after a series of calls of [add_log]. *)
Definition add_logs (log_messages : list text) (entries : list (text * text))
    : list text :=
  foldl (fun b tm => (add_log tm.1 tm.2 b).1) log_messages entries.

(** The environment with another [glob]. *)
Definition with_glob (env : environment)
    (g : nodes -> text -> list text) : environment :=
  {| env_cwd := env_cwd env; http_get := http_get env;
     random_bits := random_bits env; glob := g |}.

(** ** A small scenario *)

(** A server that answers every request with status 500. *)
Definition always_500 : environment :=
  {| env_cwd := [];
     http_get := fun _ _ =>
       Replied {| status_code := 500; content_length_ok := true;
                  body := []; body_complete := true |};
     random_bits := fun _ => 0%N;
     glob := fun _ _ => [] |}.

(** A server whose first reply breaks after the chunk [ab] and whose later
    replies deliver [cd] and [ef]. *)
Definition flaky_server : environment :=
  {| env_cwd := [];
     http_get := fun n _ =>
       match n with
       | O => Replied {| status_code := 200; content_length_ok := true;
                         body := [(str "ab", 1%Q)]; body_complete := false |}
       | S _ => Replied {| status_code := 200; content_length_ok := true;
                           body := [(str "cd", 1%Q); (str "ef", 2%Q)];
                           body_complete := true |}
       end;
     random_bits := fun _ => 5%N;
     glob := fun _ _ => [] |}.



(** The output directory exists and is empty; there is no ledger. *)
Definition fresh_world : world :=
  {| w_fs := {[ [str "out"] := Dir ]}; w_ledger := None;
     w_requests := 0; w_draws := 0; w_sleeps := [] |}.

Definition live_args : arguments :=
  {| arg_output := str "out"; arg_delay := 1; arg_jitter := 1 # 2;
     arg_max_retries := 2; arg_dry_run := false |}.

Definition dry_args : arguments :=
  {| arg_output := str "out"; arg_delay := 1; arg_jitter := 1 # 2;
     arg_max_retries := 2; arg_dry_run := true |}.

Definition plain_config : config :=
  {| local_check_dir := None; cfg_subdomain := Some (str "me") |}.


Definition nested_row : row :=
  {| Filename := str "sub/x"; Extension := str "png"; Subdomain := None |}.

Definition flat_row : row :=
  {| Filename := str "x"; Extension := str "png"; Subdomain := None |}.

(** * Properties *)

(** ** Text and lines *)

Lemma ascii_eqb_true (a b : ascii) : ascii_eqb a b = true <-> a = b.
Proof. unfold ascii_eqb. apply bool_decide_eq_true. Qed.

Lemma ascii_eqb_false (a b : ascii) : ascii_eqb a b = false <-> a <> b.
Proof. unfold ascii_eqb. apply bool_decide_eq_false. Qed.

Lemma ascii_eqb_refl (a : ascii) : ascii_eqb a a = true.
Proof. by apply ascii_eqb_true. Qed.

Lemma lstrip_suffix (s : text) : exists a, s = a ++ lstrip s.
Proof.
  induction s as [|c r [a Ha]]; simpl.
  - by exists [].
  - destruct (isspace c).
    + exists (c :: a). simpl. by f_equal.
    + by exists [].
Qed.

Lemma lstrip_length (s : text) : (length (lstrip s) <= length s)%nat.
Proof.
  destruct (lstrip_suffix s) as [a Ha]. rewrite Ha at 2.
  rewrite length_app. lia.
Qed.

Lemma rstrip_length (s : text) : (length (rstrip s) <= length s)%nat.
Proof.
  unfold rstrip. rewrite length_rev.
  etrans; [apply lstrip_length|]. by rewrite length_rev.
Qed.

Lemma lstrip_fixed (s : text) : length (lstrip s) = length s -> lstrip s = s.
Proof.
  intros Hl. destruct (lstrip_suffix s) as [a Ha].
  assert (a = []) as ->.
  { apply nil_length_inv. rewrite Ha in Hl at 2. rewrite length_app in Hl. lia. }
  by rewrite Ha at 2.
Qed.

(** A text [strip] leaves alone is left alone by [lstrip] and by [rstrip]. *)
Lemma strip_fixed (p : text) : strip p = p -> lstrip p = p /\ rstrip p = p.
Proof.
  intros Hs. unfold strip in Hs.
  assert (lstrip p = p) as Hl.
  { apply lstrip_fixed. apply Nat.le_antisymm; [apply lstrip_length|].
    rewrite <- Hs at 1. apply rstrip_length. }
  split; [done|]. by rewrite Hl in Hs.
Qed.

Lemma strip_line (p : text) : p <> [] -> strip p = p -> strip (p ++ [LF]) = p.
Proof.
  intros Hne Hs. destruct (strip_fixed p Hs) as [Hl Hr].
  unfold strip.
  assert (lstrip (p ++ [LF]) = p ++ [LF]) as ->.
  { destruct p as [|c r]; [done|]. simpl in *.
    destruct (isspace c) eqn:Hc; [|done].
    exfalso. pose proof (lstrip_length r) as Hlen.
    rewrite Hl in Hlen. simpl in Hlen. lia. }
  unfold rstrip. rewrite rev_app_distr. simpl.
  exact Hr.
Qed.

Lemma universal_newlines_app (pre rest : text) (cr : bool) :
  last pre = Some LF ->
  universal_newlines cr (pre ++ rest)
  = universal_newlines cr pre ++ universal_newlines false rest.
Proof.
  revert cr. induction pre as [|c pre IH]; intros cr Hlast; [done|].
  destruct pre as [|c' pre].
  - simpl in Hlast. injection Hlast as ->. simpl.
    rewrite ?ascii_eqb_refl. by destruct cr.
  - assert (last (c' :: pre) = Some LF) as Hl' by done.
    change ((c :: c' :: pre) ++ rest) with (c :: ((c' :: pre) ++ rest)).
    cbn [universal_newlines].
    destruct (ascii_eqb c LF); [destruct cr|destruct (ascii_eqb c CR)];
      rewrite ?IH by done; done.
Qed.

Lemma universal_newlines_last_gen (pre : text) (cr : bool) :
  last pre = Some LF ->
  if cr
  then universal_newlines cr pre = []
       \/ last (universal_newlines cr pre) = Some LF
  else last (universal_newlines cr pre) = Some LF.
Proof.
  revert cr. induction pre as [|c pre IH]; intros cr Hlast; [done|].
  destruct pre as [|c' pre].
  - simpl in Hlast. injection Hlast as ->. simpl.
    rewrite ?ascii_eqb_refl. destruct cr; [by left|done].
  - assert (last (c' :: pre) = Some LF) as Hl' by done.
    pose proof (IH false Hl') as IHf. pose proof (IH true Hl') as IHt.
    cbn beta iota in IHf, IHt.
    remember (c' :: pre) as tl eqn:Htl. clear Htl IH Hlast Hl'.
    cbn [universal_newlines].
    destruct (ascii_eqb c LF) eqn:E1; [|destruct (ascii_eqb c CR)].
    + destruct cr; [by right|]. by rewrite last_cons, IHf.
    + assert (last (LF :: universal_newlines true tl) = Some LF) as H.
      { destruct IHt as [->|H]; [done|]. by rewrite last_cons, H. }
      destruct cr; [by right|done].
    + assert (last (c :: universal_newlines false tl) = Some LF) as H.
      { by rewrite last_cons, IHf. }
      destruct cr; [by right|done].
Qed.

Lemma universal_newlines_last (pre : text) (cr : bool) :
  last pre = Some LF ->
  universal_newlines cr pre = [] \/ last (universal_newlines cr pre) = Some LF.
Proof.
  intros H. pose proof (universal_newlines_last_gen pre cr H) as G.
  destruct cr; [done|by right].
Qed.

Lemma universal_newlines_plain (p post : text) :
  LF ∉ p -> CR ∉ p ->
  universal_newlines false (p ++ LF :: post)
  = p ++ LF :: universal_newlines false post.
Proof.
  induction p as [|c p IH]; intros Hlf Hcr; simpl.
  - by rewrite ?ascii_eqb_refl.
  - apply not_elem_of_cons in Hlf as [Hc1 Hlf].
    apply not_elem_of_cons in Hcr as [Hc2 Hcr].
    assert (ascii_eqb c LF = false) as -> by (apply ascii_eqb_false; congruence).
    assert (ascii_eqb c CR = false) as -> by (apply ascii_eqb_false; congruence).
    by rewrite IH.
Qed.

Lemma split_lines_nil (s : text) : split_lines s = [] -> s = [].
Proof.
  destruct s as [|c r]; [done|]. simpl.
  destruct (ascii_eqb c LF); [done|]. by destruct (split_lines r).
Qed.

Lemma split_lines_app (a b : text) :
  a = [] \/ last a = Some LF ->
  split_lines (a ++ b) = split_lines a ++ split_lines b.
Proof.
  induction a as [|c a IH]; intros Ha; [done|].
  destruct Ha as [|Ha]; [done|]. simpl.
  destruct (ascii_eqb c LF) eqn:Ec.
  - rewrite IH; [done|]. destruct a; [by left|by right].
  - destruct a as [|c' a].
    { simpl in Ha. injection Ha as ->. by rewrite ?ascii_eqb_refl in Ec. }
    rewrite IH by (by right).
    destruct (split_lines (c' :: a)) eqn:Es; [|done].
    by apply split_lines_nil in Es.
Qed.

Lemma split_lines_plain (p rest : text) :
  LF ∉ p -> split_lines (p ++ LF :: rest) = (p ++ [LF]) :: split_lines rest.
Proof.
  induction p as [|c p IH]; intros Hlf; simpl.
  - by rewrite ?ascii_eqb_refl.
  - apply not_elem_of_cons in Hlf as [Hc Hlf].
    assert (ascii_eqb c LF = false) as -> by (apply ascii_eqb_false; congruence).
    by rewrite IH.
Qed.

(** A recorded line is one of the lines read back. *)
Lemma file_lines_record (pre p post : text) :
  pre = [] \/ last pre = Some LF ->
  LF ∉ p -> CR ∉ p ->
  p ++ [LF] ∈ file_lines (pre ++ p ++ LF :: post).
Proof.
  intros Hpre Hlf Hcr. unfold file_lines.
  destruct Hpre as [->|Hpre].
  - simpl. rewrite universal_newlines_plain, split_lines_plain by done.
    apply list_elem_of_here.
  - rewrite universal_newlines_app, universal_newlines_plain by done.
    rewrite split_lines_app by (by apply universal_newlines_last).
    rewrite split_lines_plain by done.
    apply elem_of_app. right. apply list_elem_of_here.
Qed.

(** ** The ledger *)

Lemma elem_of_load_lines (root : text) (ls : list text) (acc : gset text)
    (k : text) :
  k ∈ foldl (load_line root) acc ls
  <-> k ∈ acc
      \/ exists line, line ∈ ls /\ strip line <> []
                      /\ k = path_join root (snd (path_split (strip line))).
Proof.
  revert acc. induction ls as [|l ls IH]; intros acc; simpl.
  - split; [by left|]. intros [H|(line & H & _)]; [done|].
    by apply not_elem_of_nil in H.
  - rewrite IH. unfold load_line at 1.
    destruct (bool_decide (strip l = [])) eqn:Hb; simpl.
    + apply bool_decide_eq_true in Hb.
      split; intros [H|(line & Hin & Hne & Hk)]; auto.
      * right. exists line. split; [by apply list_elem_of_further|done].
      * apply elem_of_cons in Hin as [->|Hin]; [done|].
        right. by exists line.
    + apply bool_decide_eq_false in Hb.
      destruct (path_split (strip l)) as [hd filename] eqn:Hsp.
      rewrite elem_of_union, elem_of_singleton.
      split.
      * intros [[H|H]|(line & Hin & Hne & Hk)]; [by left| |].
        -- right. exists l. rewrite Hsp. split; [apply list_elem_of_here|done].
        -- right. exists line. split; [by apply list_elem_of_further|done].
      * intros [H|(line & Hin & Hne & Hk)]; [by left; left|].
        apply elem_of_cons in Hin as [->|Hin].
        -- left. right. by rewrite Hsp in Hk.
        -- right. by exists line.
Qed.

Lemma record_all_content (c : text) (paths : list text) :
  record_all (Some c) paths
  = Some (c ++ concat (map (fun q => q ++ [LF]) paths)).
Proof.
  revert c. induction paths as [|q qs IH]; intros c.
  - simpl. by rewrite app_nil_r.
  - change (record_all (Some c) (q :: qs))
      with (record_all (Some (c ++ q ++ [LF])) qs).
    rewrite IH. simpl. by rewrite <- !app_assoc.
Qed.


(** C5, as stated, fails: a recorded path that ends with a space is read
    back without it, so the set holds [out/a.b] and not the key of the
    recorded path. *)
Lemma ledger_round_trip_trailing_space :
  (path_join (str "out") (snd (path_split (str "out/a.b ")))
     ∉ load_downloaded (str "out") (save_downloaded (str "out/a.b ") None))
  /\ (str "out/a.b"
       ∈ load_downloaded (str "out") (save_downloaded (str "out/a.b ") None)).
Proof.
  split.
  - apply (bool_decide_eq_false_1 _). by vm_compute.
  - apply (bool_decide_eq_true_1 _). by vm_compute.
Qed.

(** C5, amended.  A recorded path that is not empty, holds no line break
    and has no whitespace at either end is found again by a later
    [load_downloaded], under the key made of its filename component joined
    to the output directory of the loading run, whatever directory it was
    recorded under and whatever was recorded after it. *)
Theorem ledger_round_trip (root p : text) (log : option text)
    (later : list text) :
  p <> [] -> LF ∉ p -> CR ∉ p -> strip p = p -> terminated log ->
  path_join root (snd (path_split p))
    ∈ load_downloaded root (record_all (save_downloaded p log) later).
Proof.
  intros Hne Hlf Hcr Hs Hlog. unfold save_downloaded.
  rewrite record_all_content. unfold load_downloaded.
  apply elem_of_load_lines. right. exists (p ++ [LF]).
  rewrite strip_line by done. split; [|done].
  rewrite <- !app_assoc. simpl.
  apply file_lines_record; [|done..].
  destruct log as [c|]; [exact Hlog|by left].
Qed.

Lemma ledger_round_trip_witness :
  path_join (str "backup") (snd (path_split (str "out/sub/a.b")))
    ∈ load_downloaded (str "backup")
        (record_all (save_downloaded (str "out/sub/a.b")
                       (Some (str "out/x.y" ++ [LF])))
           [str "out/c.d"]).
Proof.
  apply (ledger_round_trip (str "backup") (str "out/sub/a.b")
           (Some (str "out/x.y" ++ [LF])) [str "out/c.d"]).
  - discriminate.
  - apply (bool_decide_eq_false_1 _). vm_compute. reflexivity.
  - apply (bool_decide_eq_false_1 _). vm_compute. reflexivity.
  - vm_compute. reflexivity.
  - right. vm_compute. reflexivity.
Defined.

(** ** The subdomain of a row *)


(** ** The file system only grows *)

Lemma same_kind_refl (n : node) : same_kind n n.
Proof. by destruct n. Qed.

Lemma same_kind_trans (a b c : node) :
  same_kind a b -> same_kind b c -> same_kind a c.
Proof. by destruct a, b, c. Qed.

Lemma grows_refl (a : nodes) : grows a a.
Proof. intros k n H. exists n. split; [done|apply same_kind_refl]. Qed.

Lemma grows_trans (a b c : nodes) : grows a b -> grows b c -> grows a c.
Proof.
  intros Hab Hbc k n H.
  destruct (Hab k n H) as (n1 & H1 & K1).
  destruct (Hbc k n1 H1) as (n2 & H2 & K2).
  exists n2. split; [done|]. by eapply same_kind_trans.
Qed.

Lemma grows_insert (a : nodes) (k : node_path) (n : node) :
  (forall m, a !! k = Some m -> same_kind m n) -> grows a (<[k := n]> a).
Proof.
  intros Hk k' m H. destruct (decide (k = k')) as [<-|Hne].
  - exists n. rewrite lookup_insert_eq. split; [done|]. by apply Hk.
  - exists m. rewrite lookup_insert_ne by done. split; [done|].
    apply same_kind_refl.
Qed.

Lemma node_at_grows (a b : nodes) (k : node_path) (n : node) :
  grows a b -> node_at a k = Some n ->
  exists n', node_at b k = Some n' /\ same_kind n n'.
Proof.
  intros Hg. destruct k as [|x k]; simpl.
  - intros [= <-]. by exists Dir.
  - apply Hg.
Qed.

Lemma is_dir_grows (a b : nodes) (k : node_path) :
  grows a b -> is_dir a k = true -> is_dir b k = true.
Proof.
  intros Hg. unfold is_dir.
  destruct (node_at a k) as [[c|]|] eqn:Ha; try done. intros _.
  destruct (node_at_grows a b k Dir Hg Ha) as (n' & -> & Hk).
  by destruct n'.
Qed.

Lemma walk_grows (a b : nodes) (cur : node_path) (comps : list text)
    (d : node_path) :
  grows a b -> walk a cur comps = Some d -> walk b cur comps = Some d.
Proof.
  intros Hg. revert cur. induction comps as [|c rest IH]; intros cur; simpl.
  - done.
  - destruct (is_dir a cur) eqn:Hd; [|done].
    rewrite (is_dir_grows a b cur Hg Hd). apply IH.
Qed.

Lemma walk_app (fs : nodes) (cur : node_path) (xs ys : list text) :
  walk fs cur (xs ++ ys)
  = match walk fs cur xs with
    | Some d => walk fs d ys
    | None => None
    end.
Proof.
  revert cur. induction xs as [|x xs IH]; intros cur; simpl; [done|].
  destruct (is_dir fs cur); [apply IH|done].
Qed.

Lemma resolve_grows (cwd : node_path) (a b : nodes) (p : text)
    (k : node_path) :
  grows a b -> resolve cwd a p = Some k -> resolve cwd b p = Some k.
Proof.
  intros Hg. unfold resolve. destruct p; [done|]. by apply walk_grows.
Qed.


Lemma read_file_grows (cwd : node_path) (a b : nodes) (p c : text) :
  grows a b -> read_file cwd a p = Some c ->
  exists c', read_file cwd b p = Some c'.
Proof.
  intros Hg. unfold read_file.
  destruct (resolve cwd a p) as [k|] eqn:Hr; [|done].
  rewrite (resolve_grows cwd a b p k Hg Hr).
  destruct (node_at a k) as [[c0|]|] eqn:Hn; try done. intros _.
  destruct (node_at_grows a b k _ Hg Hn) as ([c'|] & -> & Hk); [|done].
  by exists c'.
Qed.


(** *** [makedirs] *)

Lemma node_at_insert_eq (fs : nodes) (k : node_path) (n : node) :
  k <> [] -> node_at (<[k := n]> fs) k = Some n.
Proof. destruct k; [done|]. intros _. simpl. apply lookup_insert_eq. Qed.

Lemma node_at_None (fs : nodes) (k : node_path) :
  node_at fs k = None -> k <> [] /\ fs !! k = None.
Proof. destruct k; [done|]. simpl. by intros ->. Qed.

Lemma mkdirs_grows (a b : nodes) (cur : node_path) (comps : list text) :
  mkdirs a cur comps = Some b -> grows a b.
Proof.
  revert a cur. induction comps as [|c rest IH]; intros a cur; simpl.
  - intros [= <-]. apply grows_refl.
  - destruct (is_dir a cur); [|done].
    destruct (node_at a (move cur c)) as [[x|]|] eqn:Hn; [done| |].
    + apply IH.
    + intros H. apply IH in H. eapply grows_trans; [|exact H].
      apply node_at_None in Hn as [_ Hn].
      apply grows_insert. intros m Hm. congruence.
Qed.

(** Once [makedirs] has succeeded, repeating it on a grown file system
    succeeds and changes nothing. *)
Lemma mkdirs_again (a a' b : nodes) (cur : node_path) (comps : list text) :
  mkdirs a cur comps = Some a' -> grows a' b -> mkdirs b cur comps = Some b.
Proof.
  revert a cur. induction comps as [|c rest IH]; intros a cur Hm Hg; simpl.
  - done.
  - simpl in Hm. pose proof Hm as Hm0.
    destruct (is_dir a cur) eqn:Hd; [|done].
    assert (grows a a') as Haa'.
    { apply (mkdirs_grows a a' cur (c :: rest)). simpl. by rewrite Hd. }
    rewrite (is_dir_grows a b cur (grows_trans _ _ _ Haa' Hg) Hd).
    destruct (node_at a (move cur c)) as [[x|]|] eqn:Hn; [done| |].
    + destruct (node_at_grows a b _ _ (grows_trans _ _ _ Haa' Hg) Hn)
        as ([x|] & -> & Hk); [done|].
      by apply (IH a).
    + pose proof (mkdirs_grows _ _ _ _ Hm) as Hg1.
      apply node_at_None in Hn as [Hne Hn].
      assert (node_at (<[move cur c := Dir]> a) (move cur c) = Some Dir) as Hi
        by (by apply node_at_insert_eq).
      destruct (node_at_grows _ b _ _ (grows_trans _ _ _ Hg1 Hg) Hi)
        as ([x|] & -> & Hk); [done|].
      by apply (IH (<[move cur c := Dir]> a)).
Qed.

Lemma makedirs_grows (cwd : node_path) (a b : nodes) (p : text) :
  makedirs cwd a p = Some b -> grows a b.
Proof. unfold makedirs. destruct p; [done|]. apply mkdirs_grows. Qed.

Lemma makedirs_again (cwd : node_path) (a a' b : nodes) (p : text) :
  makedirs cwd a p = Some a' -> grows a' b -> makedirs cwd b p = Some b.
Proof. unfold makedirs. destruct p; [done|]. apply mkdirs_again. Qed.

(** *** [open] and [write] *)

Lemma unsnoc_app {A} (l i : list A) (x : A) :
  unsnoc l = Some (i, x) -> l = i ++ [x].
Proof.
  revert i. induction l as [|y l IH]; intros i; simpl; [done|].
  destruct (unsnoc l) as [[i' z]|] eqn:Hu.
  - intros [= <- <-]. simpl. f_equal. by apply IH.
  - intros [= <- <-]. destruct l as [|z l]; [done|].
    simpl in Hu. by destruct (unsnoc l) as [[? ?]|].
Qed.

Lemma move_plain (d : node_path) (name : text) :
  plain_name name = true -> move d name = d ++ [name].
Proof.
  unfold plain_name, move. intros H. apply negb_true_iff in H.
  apply orb_false_iff in H as [H H3]. rewrite H.
  by rewrite H3.
Qed.

(** What [open(p, 'wb')] does when it succeeds: the node [k] it returns is
    the one [p] resolves to, and it is an empty regular file. *)
Lemma open_wb_spec (cwd : node_path) (fs fs' : nodes) (p : text)
    (k : node_path) :
  open_wb cwd fs p = Some (k, fs') ->
  fs' = <[k := File []]> fs /\ k <> [] /\ grows fs fs'
  /\ resolve cwd fs' p = Some k /\ fs' !! k = Some (File []).
Proof.
  unfold open_wb.
  destruct (unsnoc (components p)) as [[dirs name]|] eqn:Hu; [|done].
  destruct p as [|c0 p0]; [done|].
  destruct (walk fs (start cwd (c0 :: p0)) dirs) as [d|] eqn:Hw; [|done].
  destruct (is_dir fs d && plain_name name) eqn:Hc; [|done].
  apply andb_true_iff in Hc as [Hd Hp].
  assert (forall fs1, node_at fs (d ++ [name]) <> Some Dir ->
            Some (d ++ [name], <[d ++ [name] := File []]> fs) = Some (k, fs1) ->
            fs1 = <[k := File []]> fs /\ k <> [] /\ grows fs fs1
            /\ resolve cwd fs1 (c0 :: p0) = Some k
            /\ fs1 !! k = Some (File [])) as Hgoal.
  { intros fs1 Hnd [= <- <-].
    assert (d ++ [name] <> []) as Hne by (by destruct d).
    assert (grows fs (<[d ++ [name] := File []]> fs)) as Hg.
    { apply grows_insert. intros m Hm.
      destruct m; [done|]. exfalso. apply Hnd.
      destruct (d ++ [name]) eqn:E; [done|]. exact Hm. }
    split; [done|]. split; [done|]. split; [done|].
    split; [|apply lookup_insert_eq].
    unfold resolve. rewrite (unsnoc_app _ _ _ Hu), walk_app.
    rewrite (walk_grows _ _ _ _ _ Hg Hw). simpl.
    rewrite (is_dir_grows _ _ _ Hg Hd). by rewrite move_plain. }
  destruct (node_at fs (d ++ [name])) as [[c|]|] eqn:Hn; [|done|];
    intros H; by apply Hgoal.
Qed.

Lemma open_wb_truncates (cwd : node_path) (fs fs' : nodes) (p : text)
    (k : node_path) :
  open_wb cwd fs p = Some (k, fs') -> read_file cwd fs' p = Some [].
Proof.
  intros H. apply open_wb_spec in H as (_ & Hne & _ & Hr & Hk).
  unfold read_file. rewrite Hr. destruct k; [done|]. simpl. by rewrite Hk.
Qed.

(** A destination that could be opened can be opened again later. *)
Lemma open_wb_again (cwd : node_path) (fs fs1 fs2 : nodes) (p : text)
    (k : node_path) :
  open_wb cwd fs p = Some (k, fs1) -> grows fs1 fs2 ->
  exists fs3, open_wb cwd fs2 p = Some (k, fs3).
Proof.
  intros Ho Hg. pose proof (open_wb_spec _ _ _ _ _ Ho) as (_ & Hne & Hg1 & _ & Hk).
  revert Ho. unfold open_wb.
  destruct (unsnoc (components p)) as [[dirs name]|] eqn:Hu; [|done].
  destruct p as [|c0 p0]; [done|].
  destruct (walk fs (start cwd (c0 :: p0)) dirs) as [d|] eqn:Hw; [|done].
  destruct (is_dir fs d && plain_name name) eqn:Hc; [|done].
  apply andb_true_iff in Hc as [Hd Hp].
  pose proof (grows_trans _ _ _ Hg1 Hg) as Hg2.
  rewrite (walk_grows _ _ _ _ _ Hg2 Hw), (is_dir_grows _ _ _ Hg2 Hd), Hp.
  simpl. intros Hk0.
  assert (k = d ++ [name]) as ->.
  { destruct (node_at fs (d ++ [name])) as [[c|]|]; congruence. }
  destruct (Hg _ _ Hk) as ([c|] & Hk2 & Hkind); [|done].
  assert (node_at fs2 (d ++ [name]) = Some (File c)) as ->.
  { destruct (d ++ [name]); [done|]. exact Hk2. }
  by eexists.
Qed.

Lemma write_chunk_spec (fs : nodes) (k : node_path) (c chunk : text) :
  fs !! k = Some (File c) ->
  write_chunk fs k chunk !! k = Some (File (c ++ chunk))
  /\ grows fs (write_chunk fs k chunk).
Proof.
  intros H. unfold write_chunk. rewrite H. split.
  - apply lookup_insert_eq.
  - apply grows_insert. intros m Hm. rewrite H in Hm. by injection Hm as <-.
Qed.

(** Streaming appends the chunks, in order, to what the file holds. *)
Lemma stream_chunks_spec (k : node_path) (chunks : list (text * Q))
    (fs : nodes) (n : Z) (sp : Q) (c : text) :
  fs !! k = Some (File c) ->
  (stream_chunks k chunks fs n sp).1.1 !! k
  = Some (File (c ++ concat (map fst chunks)))
  /\ grows fs (stream_chunks k chunks fs n sp).1.1.
Proof.
  revert fs n sp c.
  induction chunks as [|[chunk el] rest IH]; intros fs n sp c Hk; simpl.
  - rewrite app_nil_r. split; [done|apply grows_refl].
  - destruct (bool_decide (chunk = [])) eqn:He.
    + apply bool_decide_eq_true in He as ->. simpl. by apply IH.
    + destruct (write_chunk_spec fs k c chunk Hk) as [Hw Hg].
      destruct (IH (write_chunk fs k chunk)
                  (n + Z.of_nat (length chunk))
                  (if Qltb 0 el
                   then (inject_Z (n + Z.of_nat (length chunk)) / el)%Q
                   else sp)
                  (c ++ chunk) Hw) as [H1 H2].
      split.
      * rewrite H1. by rewrite <- app_assoc.
      * by eapply grows_trans.
Qed.

(** ** One attempt *)

Section Attempt.
Context (env : environment) (url save_path : text).

Lemma try_download_frame (sp : Q) (w : world) :
  let w' := (try_download env url save_path sp w).2 in
  w_requests w' = S (w_requests w) /\ w_ledger w' = w_ledger w
  /\ w_draws w' = w_draws w /\ w_sleeps w' = w_sleeps w
  /\ grows (w_fs w) (w_fs w').
Proof.
  unfold try_download, requests_get. simpl.
  pose proof (grows_refl (w_fs w)) as Hr.
  destruct (http_get env (w_requests w) url) as [|r]; [done|].
  destruct (status_code r =? 200); [|done].
  destruct (content_length_ok r); [|done]. simpl.
  destruct (open_wb (env_cwd env) (w_fs w) save_path) as [[k fs1]|] eqn:Ho;
    [|done].
  apply open_wb_spec in Ho as (_ & _ & Hg & _ & Hk).
  destruct (stream_chunks_spec k (body r) fs1 0 sp [] Hk) as [_ Hg2].
  destruct (stream_chunks k (body r) fs1 0 sp) as [[fs2 n2] sp2]. simpl in *.
  repeat split; try done. by eapply grows_trans.
Qed.

(** An attempt that does not reach the streaming phase fails and leaves
    the file system alone. *)
Lemma try_download_idle (sp : Q) (w : world) :
  reaches_stream env url save_path (w_fs w) (w_requests w) = false ->
  exists w', try_download env url save_path sp w = (false, sp, w')
             /\ w_fs w' = w_fs w.
Proof.
  unfold reaches_stream, try_download, requests_get. simpl.
  destruct (http_get env (w_requests w) url) as [|r]; [by eexists|].
  destruct (status_code r =? 200); [|by eexists].
  destruct (content_length_ok r); [|by eexists]. simpl.
  destruct (open_wb (env_cwd env) (w_fs w) save_path) as [[k fs1]|] eqn:Ho;
    [|by eexists].
  intros H. apply bool_decide_eq_false in H. exfalso. apply H. by eexists.
Qed.

(** An attempt that reaches the streaming phase leaves in the destination
    the bytes of its own body and nothing else; it returns exactly when
    the stream was complete. *)
Lemma try_download_stream (sp : Q) (w : world) :
  reaches_stream env url save_path (w_fs w) (w_requests w) = true ->
  exists r, http_get env (w_requests w) url = Replied r
    /\ status_code r = 200 /\ content_length_ok r = true
    /\ (try_download env url save_path sp w).1.1 = body_complete r
    /\ read_file (env_cwd env)
         (w_fs (try_download env url save_path sp w).2) save_path
       = Some (concat (map fst (body r)))
    /\ is_Some (open_wb (env_cwd env)
                  (w_fs (try_download env url save_path sp w).2) save_path).
Proof.
  unfold reaches_stream, try_download, requests_get. simpl.
  destruct (http_get env (w_requests w) url) as [|r]; [done|].
  destruct (status_code r =? 200) eqn:Hs; [|done].
  destruct (content_length_ok r) eqn:Hcl; [|done]. simpl.
  destruct (open_wb (env_cwd env) (w_fs w) save_path) as [[k fs1]|] eqn:Ho.
  2:{ intros H. apply bool_decide_eq_true in H as [? ?]. done. }
  intros _. exists r. apply Z.eqb_eq in Hs.
  pose proof (open_wb_spec _ _ _ _ _ Ho) as (_ & Hne & Hg & Hr & Hk).
  destruct (stream_chunks_spec k (body r) fs1 0 sp [] Hk) as [Hc Hg2].
  destruct (stream_chunks k (body r) fs1 0 sp) as [[fs2 n2] sp2]. simpl in *.
  repeat split; try done.
  - unfold read_file. rewrite (resolve_grows _ _ _ _ _ Hg2 Hr).
    destruct k; [done|]. simpl. by rewrite Hc.
  - destruct (open_wb_again _ _ _ _ _ _ Ho Hg2) as [fs3 H3]. by eexists.
Qed.
End Attempt.

(** ** Sleeping and random numbers *)

Lemma random_uniform_spec (env : environment) (a b : Q) (w : world) :
  random_uniform env a b w
  = (uniform_value env a b (w_draws w),
     {| w_fs := w_fs w; w_ledger := w_ledger w; w_requests := w_requests w;
        w_draws := S (w_draws w); w_sleeps := w_sleeps w |}).
Proof. reflexivity. Qed.

Lemma Qltb_false (x y : Q) : Qltb x y = false <-> (y <= x)%Q.
Proof.
  unfold Qltb. rewrite negb_false_iff. apply Qle_bool_iff.
Qed.

Lemma Qltb_true (x y : Q) : Qltb x y = true <-> (x < y)%Q.
Proof.
  unfold Qltb. rewrite negb_true_iff. rewrite <- not_true_iff_false.
  rewrite Qle_bool_iff. split; [apply Qnot_le_lt|apply Qlt_not_le].
Qed.

Lemma time_sleep_returns (s : Q) (w w' : world) (u : unit) :
  time_sleep s w = Returns u w' ->
  (0 <= s)%Q
  /\ w' = {| w_fs := w_fs w; w_ledger := w_ledger w;
             w_requests := w_requests w; w_draws := w_draws w;
             w_sleeps := s :: w_sleeps w |}.
Proof.
  unfold time_sleep. destruct (Qltb s 0) eqn:H; [done|].
  intros [= <- <-]. split; [|done]. by apply Qltb_false.
Qed.

Lemma time_sleep_raises (s : Q) (w w' : world) (e : exn) :
  time_sleep s w = Raises e w' -> (s < 0)%Q /\ w' = w /\ e = ValueError.
Proof.
  unfold time_sleep. destruct (Qltb s 0) eqn:H; [|done].
  intros [= <- <-]. split; [|done]. by apply Qltb_true.
Qed.





(** ** The retry loop *)

Section Loop.
Context (env : environment) (url save_path : text) (max_retries : Z)
  (base_delay jitter : Q).

Local Abbreviation loop fuel attempt sp w :=
  (download_loop fuel env url save_path max_retries base_delay jitter
     attempt sp w).
Local Abbreviation try sp w := (try_download env url save_path sp w).

(** The loop never runs out of fuel when given one unit per attempt that
    is left. *)
Lemma download_loop_total (fuel : nat) (attempt : Z) (sp : Q) (w : world) :
  (Z.to_nat (max_retries + 1 - attempt) <= fuel)%nat ->
  exists out, loop fuel attempt sp w = Some out.
Proof.
  revert attempt sp w.
  induction fuel as [|fuel IH]; intros attempt sp w Hf;
    cbn [download_loop];
    (destruct (attempt <=? max_retries) eqn:Hc; [|by eexists]);
    apply Z.leb_le in Hc; [lia|].
  destruct (try sp w) as [[b sp1] w1]. destruct b; [by eexists|].
  destruct (attempt + 1 <=? max_retries) eqn:Hc2; [|apply IH; lia].
  rewrite random_uniform_spec.
  destruct (time_sleep _ _); [apply IH; lia|by eexists].
Qed.

(** Case analysis of a run of the loop, one case per way an iteration
    ends. *)
Lemma download_loop_cases (P : Z -> world -> outcome (bool * Q) -> Prop) :
  (forall attempt w,
      max_retries < attempt -> P attempt w (Returns (false, 0%Q) w)) ->
  (forall attempt sp w sp1 w1,
      attempt <= max_retries -> try sp w = (true, sp1, w1) ->
      P attempt w (Returns (true, sp1) w1)) ->
  (forall attempt sp w sp1 w1,
      attempt = max_retries -> try sp w = (false, sp1, w1) ->
      P attempt w (Returns (false, 0%Q) w1)) ->
  (forall attempt sp w sp1 w1,
      attempt < max_retries -> try sp w = (false, sp1, w1) ->
      (sleep_time env base_delay jitter (attempt + 1) (w_draws w1) < 0)%Q ->
      P attempt w (Raises ValueError (drawn w1))) ->
  (forall attempt sp w sp1 w1 out,
      attempt < max_retries -> try sp w = (false, sp1, w1) ->
      (0 <= sleep_time env base_delay jitter (attempt + 1) (w_draws w1))%Q ->
      P (attempt + 1)
        (slept (sleep_time env base_delay jitter (attempt + 1) (w_draws w1))
           (drawn w1)) out ->
      P attempt w out) ->
  forall fuel attempt sp w out,
    loop fuel attempt sp w = Some out -> P attempt w out.
Proof.
  intros Hexit Hok Hlast Hraise Hretry.
  induction fuel as [|fuel IH]; intros attempt sp w out;
    cbn [download_loop]; destruct (attempt <=? max_retries) eqn:Hc;
    try done.
  - apply Z.leb_gt in Hc. intros [= <-]. by apply Hexit.
  - apply Z.leb_le in Hc.
    destruct (try sp w) as [[b sp1] w1] eqn:Ht. destruct b.
    { intros [= <-]. by eapply Hok. }
    destruct (attempt + 1 <=? max_retries) eqn:Hc2.
    + apply Z.leb_le in Hc2. rewrite random_uniform_spec.
      fold (drawn w1).
      change (base_delay * inject_Z (2 ^ (attempt + 1))
              + uniform_value env 0 jitter (w_draws w1))%Q
        with (sleep_time env base_delay jitter (attempt + 1) (w_draws w1)).
      destruct (time_sleep _ _) as [u w3|e w3] eqn:Hs.
      * apply time_sleep_returns in Hs as [Hs ->]. intros Hl.
        eapply Hretry; [lia|exact Ht|exact Hs|]. by eapply IH.
      * apply time_sleep_raises in Hs as (Hs & -> & ->).
        intros [= <-]. eapply Hraise; [lia|exact Ht|exact Hs].
    + apply Z.leb_gt in Hc2. intros Hl.
      assert (out = Returns (false, 0%Q) w1) as ->.
      { destruct fuel; cbn [download_loop] in Hl;
          (destruct (attempt + 1 <=? max_retries) eqn:Hc3;
           [apply Z.leb_le in Hc3; lia|]); congruence. }
      eapply Hlast; [lia|exact Ht].
  - apply Z.leb_gt in Hc. intros [= <-]. by apply Hexit.
Qed.

(** What a run leaves alone, and the bound on the GETs it issues. *)
Lemma download_loop_frame (fuel : nat) (attempt : Z) (sp : Q) (w : world)
    (out : outcome (bool * Q)) :
  loop fuel attempt sp w = Some out ->
  w_ledger (world_of out) = w_ledger w
  /\ grows (w_fs w) (w_fs (world_of out))
  /\ (w_requests w <= w_requests (world_of out))%nat
  /\ (attempt <= max_retries ->
      (w_requests w < w_requests (world_of out))%nat)
  /\ Z.of_nat (w_requests (world_of out) - w_requests w)
     <= Z.max 0 (max_retries + 1 - attempt).
Proof.
  revert fuel attempt sp w out.
  apply download_loop_cases.
  - intros attempt w Hc. simpl.
    repeat split; try done; try lia. apply grows_refl.
  - intros attempt sp w sp1 w1 Hc Ht. simpl.
    pose proof (try_download_frame env url save_path sp w) as H.
    rewrite Ht in H. simpl in H. destruct H as (Hr & Hl & _ & _ & Hg).
    repeat split; try done; lia.
  - intros attempt sp w sp1 w1 Hc Ht. simpl.
    pose proof (try_download_frame env url save_path sp w) as H.
    rewrite Ht in H. simpl in H. destruct H as (Hr & Hl & _ & _ & Hg).
    repeat split; try done; lia.
  - intros attempt sp w sp1 w1 Hc Ht Hs. simpl.
    pose proof (try_download_frame env url save_path sp w) as H.
    rewrite Ht in H. simpl in H. destruct H as (Hr & Hl & _ & _ & Hg).
    repeat split; try done; lia.
  - intros attempt sp w sp1 w1 out Hc Ht Hs (IH1 & IH2 & IH3 & IH4 & IH5).
    simpl in *.
    pose proof (try_download_frame env url save_path sp w) as H.
    rewrite Ht in H. simpl in H. destruct H as (Hr & Hl & _ & _ & Hg).
    repeat split; try congruence; try lia.
    by eapply grows_trans.
Qed.
Lemma reaches_stream_fs (fs fs' : nodes) (i : nat) :
  reaches_stream env url save_path fs i = true ->
  is_Some (open_wb (env_cwd env) fs' save_path) ->
  reaches_stream env url save_path fs' i = true.
Proof.
  unfold reaches_stream. destruct (http_get env i url) as [|r]; [done|].
  intros H Ho. apply andb_true_iff in H as [-> _]. simpl.
  by apply bool_decide_eq_true.
Qed.

Lemma reaches_stream_open (fs : nodes) (i : nat) :
  reaches_stream env url save_path fs i = true ->
  is_Some (open_wb (env_cwd env) fs save_path).
Proof.
  unfold reaches_stream. destruct (http_get env i url) as [|r]; [done|].
  intros H. apply andb_true_iff in H as [_ H].
  by apply bool_decide_eq_true in H.
Qed.

(** What one attempt does to the destination, by whether it reaches the
    streaming phase. *)
Lemma try_download_file (sp : Q) (w : world) (b : bool) (sp1 : Q)
    (w1 : world) :
  try sp w = (b, sp1, w1) ->
  w_requests w1 = S (w_requests w)
  /\ ((reaches_stream env url save_path (w_fs w) (w_requests w) = false
       /\ w_fs w1 = w_fs w /\ b = false)
      \/ (reaches_stream env url save_path (w_fs w) (w_requests w) = true
          /\ read_file (env_cwd env) (w_fs w1) save_path
             = Some (body_bytes (http_get env (w_requests w) url))
          /\ is_Some (open_wb (env_cwd env) (w_fs w1) save_path))).
Proof.
  intros Ht.
  pose proof (try_download_frame env url save_path sp w) as Hf.
  rewrite Ht in Hf. simpl in Hf. destruct Hf as (Hr & _).
  split; [done|].
  destruct (reaches_stream env url save_path (w_fs w) (w_requests w)) eqn:Hs.
  - right. split; [done|].
    destruct (try_download_stream env url save_path sp w Hs)
      as (r & Hg & _ & _ & _ & Hread & Ho).
    rewrite Ht in Hread, Ho. simpl in Hread, Ho. by rewrite Hg.
  - left. split; [done|].
    destruct (try_download_idle env url save_path sp w Hs) as (w' & Ht' & Hfs).
    rewrite Ht in Ht'. by injection Ht' as -> _ ->.
Qed.

(** The destination after a run: either no attempt reached the streaming
    phase and the file system is as before, or the destination holds the
    bytes of the body of one single attempt. *)
Lemma download_loop_file (fuel : nat) (attempt : Z) (sp : Q) (w : world)
    (out : outcome (bool * Q)) :
  loop fuel attempt sp w = Some out ->
  (w_requests w <= w_requests (world_of out))%nat
  /\ ((w_fs (world_of out) = w_fs w
       /\ (forall i, (w_requests w <= i < w_requests (world_of out))%nat ->
                     reaches_stream env url save_path (w_fs w) i = false)
       /\ (forall s w', out <> Returns (true, s) w'))
      \/ (exists i, (w_requests w <= i < w_requests (world_of out))%nat
            /\ reaches_stream env url save_path (w_fs w) i = true
            /\ read_file (env_cwd env) (w_fs (world_of out)) save_path
               = Some (body_bytes (http_get env i url)))).
Proof.
  revert fuel attempt sp w out.
  apply download_loop_cases.
  - intros attempt w Hc. split; [done|]. left. simpl.
    split; [done|]. split; [|done]. intros i Hi. lia.
  - intros attempt sp w sp1 w1 Hc Ht. simpl.
    destruct (try_download_file _ _ _ _ _ Ht)
      as (Hr & [(_ & _ & ?)|(Hs & Hread & _)]); [done|].
    split; [lia|]. right.
    exists (w_requests w). split; [lia|done].
  - intros attempt sp w sp1 w1 Hc Ht. simpl.
    destruct (try_download_file _ _ _ _ _ Ht)
      as (Hr & [(Hs & Hfs & _)|(Hs & Hread & _)]); (split; [lia|]).
    + left. split; [done|]. split; [|done].
      intros i Hi. by replace i with (w_requests w) by lia.
    + right. exists (w_requests w). split; [lia|done].
  - intros attempt sp w sp1 w1 Hc Ht _. simpl.
    destruct (try_download_file _ _ _ _ _ Ht)
      as (Hr & [(Hs & Hfs & _)|(Hs & Hread & _)]); (split; [lia|]).
    + left. split; [done|]. split; [|done].
      intros i Hi. by replace i with (w_requests w) by lia.
    + right. exists (w_requests w). split; [lia|done].
  - intros attempt sp w sp1 w1 out Hc Ht _ [Hmono IH]. simpl in IH, Hmono.
    destruct (try_download_file _ _ _ _ _ Ht)
      as (Hr & [(Hs & Hfs & _)|(Hs & Hread & Ho)]); (split; [lia|]).
    + rewrite Hfs, Hr in IH.
      destruct IH as [(IH1 & IH2 & IH3)|(i & Hi & IH1 & IH2)].
      * left. split; [done|]. split; [|done].
        intros i Hi. destruct (decide (i = w_requests w)) as [->|Hne];
          [done|]. apply IH2. lia.
      * right. exists i. split; [lia|done].
    + right. rewrite Hr in IH.
      destruct IH as [(IH1 & IH2 & IH3)|(i & Hi & IH1 & IH2)].
      * exists (w_requests w). rewrite IH1. split; [lia|done].
      * exists i. split; [lia|]. split; [|done].
        eapply reaches_stream_fs; [exact IH1|].
        by eapply reaches_stream_open.
Qed.




Section NonNegative.
Hypothesis Hbase : (0 <= base_delay)%Q.
Hypothesis Hjitter : (0 <= jitter)%Q.



End NonNegative.
End Loop.

(** ** The driver *)

Lemma set_fs_same (w : world) : set_fs w (w_fs w) = w.
Proof. by destruct w. Qed.

Lemma process_row_raises (env : environment) (args : arguments) (cfg : config)
    (downloaded : gset text) (r : row) (c : summary) (w : world) :
  makedirs (env_cwd env) (w_fs w) (dirname (save_path args r)) = None ->
  process_row env args cfg downloaded r c w = Some (Raises OSError w).
Proof. intros H. unfold process_row. by rewrite H. Qed.

(** A row that a skip check stops: one counter moves, the world is the
    one [os.makedirs] left. *)
Lemma process_row_skipped (env : environment) (args : arguments)
    (cfg : config) (downloaded : gset text) (r : row) (c : summary)
    (w : world) (fs : nodes) :
  makedirs (env_cwd env) (w_fs w) (dirname (save_path args r)) = Some fs ->
  skipped env args cfg downloaded r fs = true ->
  exists c', process_row env args cfg downloaded r c w
             = Some (Returns c' (set_fs w fs))
             /\ downloaded_count c' = downloaded_count c.
Proof.
  intros Hm. unfold process_row, skipped. rewrite Hm. simpl.
  destruct (bool_decide (save_path args r ∈ downloaded)); [by eexists|].
  destruct (path_exists _ _ _); [by eexists|].
  destruct (truthy (local_check_dir cfg) && _); [by eexists|].
  destruct (arg_dry_run args); [by eexists|]. done.
Qed.

(** A row that no skip check stops is handed to the fetcher. *)
Lemma process_row_fetches (env : environment) (args : arguments)
    (cfg : config) (downloaded : gset text) (r : row) (c : summary)
    (w : world) (fs : nodes) :
  makedirs (env_cwd env) (w_fs w) (dirname (save_path args r)) = Some fs ->
  skipped env args cfg downloaded r fs = false ->
  process_row env args cfg downloaded r c w
  = match fetch env args cfg r (set_fs w fs) with
    | None => None
    | Some (Raises e w) => Some (Raises e w)
    | Some (Returns (success, _) w) =>
        Some (after_download env args r success c w)
    end.
Proof.
  intros Hm. unfold process_row, skipped, fetch. rewrite Hm. simpl.
  destruct (bool_decide (save_path args r ∈ downloaded)); [done|].
  destruct (path_exists _ _ _); [done|].
  destruct (truthy (local_check_dir cfg) && _); [done|].
  by destruct (arg_dry_run args).
Qed.

Lemma after_download_world (env : environment) (args : arguments) (r : row)
    (success : bool) (c : summary) (w : world) :
  let out := after_download env args r success c w in
  w_fs (world_of out) = w_fs w
  /\ w_requests (world_of out) = w_requests w
  /\ w_ledger (world_of out)
     = (if success then save_downloaded (save_path args r) (w_ledger w)
        else w_ledger w)
  /\ (forall c' w', out = Returns c' w' ->
        c' = if success then count_downloaded c else c).
Proof.
  unfold after_download.
  destruct success; cbn beta iota; rewrite random_uniform_spec;
    cbn beta iota; unfold time_sleep;
    destruct (Qltb _ _); simpl; repeat split; try done; congruence.
Qed.




(** The loop body only makes the file system grow. *)
Lemma process_row_grows (env : environment) (args : arguments) (cfg : config)
    (downloaded : gset text) (r : row) (c : summary) (w : world)
    (out : outcome summary) :
  process_row env args cfg downloaded r c w = Some out ->
  grows (w_fs w) (w_fs (world_of out)).
Proof.
  destruct (makedirs (env_cwd env) (w_fs w) (dirname (save_path args r)))
    as [fs|] eqn:Hm.
  - pose proof (makedirs_grows _ _ _ _ Hm) as Hg.
    destruct (skipped env args cfg downloaded r fs) eqn:Hs.
    + destruct (process_row_skipped _ _ _ _ _ c _ _ Hm Hs) as (c' & -> & _).
      by intros [= <-].
    + rewrite (process_row_fetches _ _ _ _ _ _ _ _ Hm Hs).
      destruct (fetch env args cfg r (set_fs w fs)) as [o|] eqn:Hf; [|done].
      apply download_loop_frame in Hf as (_ & Hg2 & _).
      destruct o as [[b s] w'|e w']; intros [= <-]; simpl in *.
      * destruct (after_download_world env args r b c w') as (-> & _).
        by eapply grows_trans.
      * by eapply grows_trans.
  - rewrite process_row_raises by done. intros [= <-]. apply grows_refl.
Qed.

Lemma process_rows_grows (env : environment) (args : arguments) (cfg : config)
    (downloaded : gset text) (rows : list row) (c : summary) (w : world)
    (out : outcome summary) :
  process_rows env args cfg downloaded rows c w = Some out ->
  grows (w_fs w) (w_fs (world_of out)).
Proof.
  revert c w. induction rows as [|r rows IH]; intros c w; simpl.
  - intros [= <-]. apply grows_refl.
  - destruct (process_row env args cfg downloaded r c w) as [o|] eqn:Hr;
      [|done].
    apply process_row_grows in Hr.
    destruct o as [c1 w1|e w1]; simpl in Hr.
    + intros H. apply IH in H. by eapply grows_trans.
    + by intros [= <-].
Qed.

(** ** Skip checks *)



(** ** Where the directories are created *)

(** C7, as stated, fails: in a dry run the row [sub/x.png] is stopped by
    the dry-run check, no GET is issued, and yet the directory [out/sub]
    has been created. *)
Lemma dry_run_creates_directory :
  process_row always_500 dry_args plain_config ∅ nested_row no_counts
    fresh_world
  = Some (Returns (count_dry_run no_counts)
            (set_fs fresh_world
               (<[ [str "out"; str "sub"] := Dir ]> (w_fs fresh_world))))
  /\ w_fs fresh_world !! [str "out"; str "sub"] = None.
Proof. split; vm_compute; reflexivity. Qed.

(** C7, amended.  The parent directories of the save path are created at
    the top of the loop body, before any skip check, for every row: when
    [os.makedirs] fails the row raises and nothing else happens; otherwise
    a row stopped by a skip check leaves the file system exactly as
    [os.makedirs] left it, and a row that is not stopped is handed to the
    fetcher on that same file system. *)
Theorem directories_before_skip_checks (env : environment) (args : arguments)
    (cfg : config) (downloaded : gset text) (r : row) (c : summary)
    (w : world) :
  match makedirs (env_cwd env) (w_fs w) (dirname (save_path args r)) with
  | None =>
      process_row env args cfg downloaded r c w = Some (Raises OSError w)
  | Some fs =>
      if skipped env args cfg downloaded r fs then
        exists c', process_row env args cfg downloaded r c w
                   = Some (Returns c' (set_fs w fs))
      else
        process_row env args cfg downloaded r c w
        = match fetch env args cfg r (set_fs w fs) with
          | None => None
          | Some (Raises e w) => Some (Raises e w)
          | Some (Returns (success, _) w) =>
              Some (after_download env args r success c w)
          end
  end.
Proof.
  destruct (makedirs (env_cwd env) (w_fs w) (dirname (save_path args r)))
    as [fs|] eqn:Hm.
  - destruct (skipped env args cfg downloaded r fs) eqn:Hs.
    + destruct (process_row_skipped _ _ _ _ _ c _ _ Hm Hs) as (c' & H & _).
      by exists c'.
    + by apply process_row_fetches.
  - by apply process_row_raises.
Qed.

(** ** The fetcher *)

Lemma download_file_total (env : environment) (url save_path : text)
    (max_retries : Z) (base_delay jitter : Q) (w : world) :
  exists out,
    download_file env url save_path max_retries base_delay jitter w = Some out.
Proof.
  unfold download_file. apply download_loop_total. by rewrite Z.sub_0_r.
Qed.

(** C2.  With [max_retries >= 0] a call of [download_file] ends, having
    issued at most [max_retries + 1] GETs.  Opening the destination
    truncates it, an attempt that reaches the streaming phase leaves in it
    the bytes of its own body whatever it held before, and after the call
    the destination is either untouched or holds the body of one single
    attempt. *)
Theorem retry_bound_and_truncation (env : environment) (url save_path : text)
    (max_retries : Z) (base_delay jitter : Q) (w : world) :
  0 <= max_retries ->
  exists out,
    download_file env url save_path max_retries base_delay jitter w = Some out
    /\ Z.of_nat (w_requests (world_of out) - w_requests w) <= max_retries + 1
    /\ (forall fs k fs',
          open_wb (env_cwd env) fs save_path = Some (k, fs') ->
          read_file (env_cwd env) fs' save_path = Some [])
    /\ (forall sp w0,
          reaches_stream env url save_path (w_fs w0) (w_requests w0) = true ->
          read_file (env_cwd env)
            (w_fs (try_download env url save_path sp w0).2) save_path
          = Some (body_bytes (http_get env (w_requests w0) url)))
    /\ (w_fs (world_of out) = w_fs w
        \/ exists i,
             (w_requests w <= i < w_requests (world_of out))%nat
             /\ reaches_stream env url save_path (w_fs w) i = true
             /\ read_file (env_cwd env) (w_fs (world_of out)) save_path
                = Some (body_bytes (http_get env i url))).
Proof.
  intros Hmr.
  destruct (download_file_total env url save_path max_retries base_delay
              jitter w) as [out Hout].
  exists out. split; [done|]. unfold download_file in Hout.
  pose proof (download_loop_frame _ _ _ _ _ _ _ _ _ _ _ Hout)
    as (_ & _ & _ & _ & Hn).
  pose proof (download_loop_file _ _ _ _ _ _ _ _ _ _ _ Hout) as [_ Hf].
  split; [lia|]. split; [|split].
  - intros fs k fs'. apply open_wb_truncates.
  - intros sp w0 Hs.
    destruct (try_download env url save_path sp w0) as [[b sp1] w1] eqn:Ht.
    destruct (try_download_file _ _ _ _ _ _ _ _ Ht)
      as (_ & [(Hs' & _)|(_ & Hr & _)]); [congruence|done].
  - destruct Hf as [(Hfs & _)|Hi]; [by left|by right].
Qed.

Lemma retry_bound_and_truncation_witness :
  exists out,
    download_file flaky_server (str "u") (str "out/x.png") 2 1 (1 # 2)
      fresh_world = Some out
    /\ Z.of_nat (w_requests (world_of out) - w_requests fresh_world) <= 2 + 1
    /\ read_file [] (w_fs (world_of out)) (str "out/x.png")
       = Some (str "cdef").
Proof.
  destruct (retry_bound_and_truncation flaky_server (str "u")
              (str "out/x.png") 2 1 (1 # 2) fresh_world)
    as (out & Hout & Hn & _).
  - lia.
  - exists out. split; [exact Hout|]. split; [exact Hn|].
    vm_compute in Hout. injection Hout as <-. vm_compute. reflexivity.
Defined.





(** ** Files that are already there *)







(** * Further properties *)

(** ** More on the ledger *)

Lemma file_lines_app (a b : text) :
  last a = Some LF -> file_lines (a ++ b) = file_lines a ++ file_lines b.
Proof.
  intros Ha. unfold file_lines.
  rewrite universal_newlines_app by done.
  apply split_lines_app. by apply universal_newlines_last.
Qed.

Lemma save_downloaded_terminated (p : text) (log : option text) :
  terminated (save_downloaded p log).
Proof.
  unfold save_downloaded, terminated. right.
  rewrite app_assoc. apply last_snoc.
Qed.

Lemma elem_of_load_downloaded (root : text) (content k : text) :
  k ∈ load_downloaded root (Some content)
  <-> exists line, line ∈ file_lines content /\ strip line <> []
        /\ k = path_join root (snd (path_split (strip line))).
Proof.
  unfold load_downloaded. rewrite elem_of_load_lines.
  split; [|by right]. intros [H|H]; [|done]. by apply not_elem_of_empty in H.
Qed.

(** Loading after one more record adds the keys of the recorded line to
    what the log gave before. *)
Lemma load_downloaded_save (root p : text) (log : option text) :
  terminated log ->
  load_downloaded root (save_downloaded p log)
  = load_downloaded root log ∪ load_downloaded root (Some (p ++ [LF])).
Proof.
  intros Hlog. apply set_eq. intros k. rewrite elem_of_union.
  unfold save_downloaded.
  destruct log as [c|]; cbn [default].
  - destruct Hlog as [->|Hc].
    + change (load_downloaded root (Some [])) with (∅ : gset text).
      cbn [app]. rewrite elem_of_empty. tauto.
    + rewrite !elem_of_load_downloaded, file_lines_app by done.
      setoid_rewrite elem_of_app. naive_solver.
  - change (load_downloaded root None) with (∅ : gset text).
    cbn [app]. rewrite elem_of_empty. tauto.
Qed.

(** X1.  What a load returns after a series of records is the union of what
    the log gave before and of what each recorded path gives on its own:
    the order of the records and their repetition do not matter. *)
Theorem load_downloaded_records (root : text) (log : option text)
    (paths : list text) :
  terminated log ->
  load_downloaded root (record_all log paths)
  = load_downloaded root log
      ∪ ⋃ ((fun p => load_downloaded root (Some (p ++ [LF]))) <$> paths)
  /\ forall paths' : list text,
       (forall p, p ∈ paths <-> p ∈ paths') ->
       load_downloaded root (record_all log paths')
       = load_downloaded root (record_all log paths).
Proof.
  intros Hlog.
  assert (forall ps l, terminated l ->
            load_downloaded root (record_all l ps)
            = load_downloaded root l
                ∪ ⋃ ((fun p => load_downloaded root (Some (p ++ [LF])))
                       <$> ps)) as Hgen.
  { induction ps as [|p ps IH]; intros l Hl.
    - simpl. set_solver.
    - change (record_all l (p :: ps))
        with (record_all (save_downloaded p l) ps).
      rewrite IH by apply save_downloaded_terminated.
      rewrite load_downloaded_save by done. simpl. set_solver. }
  split; [by apply Hgen|].
  intros paths' Hsame. rewrite !Hgen by done.
  apply set_eq. intros k. rewrite !elem_of_union, !elem_of_union_list.
  split; (intros [H|(X & HX & Hk)]; [by left|right]);
    apply list_elem_of_fmap in HX as (p & -> & Hp);
    (exists (load_downloaded root (Some (p ++ [LF]))); split; [|done]);
    apply list_elem_of_fmap; exists p; (split; [done|]); by apply Hsame.
Qed.

Lemma load_downloaded_records_witness :
  load_downloaded (str "out")
    (record_all None [str "a/x.png"; str "b/y.png"; str "a/x.png"])
  = load_downloaded (str "out")
      (record_all None [str "b/y.png"; str "a/x.png"]).
Proof.
  apply (proj2 (load_downloaded_records (str "out") None
                  [str "b/y.png"; str "a/x.png"] I)).
  intros p. rewrite !elem_of_cons. naive_solver.
Defined.

Lemma cut_tail_no_sep (p : text) : sep ∉ (cut_at_last_sep p).2.
Proof.
  induction p as [|c p IH]; simpl; [apply not_elem_of_nil|].
  destruct (cut_at_last_sep p) as [h t]. simpl in IH.
  destruct (ascii_eqb c sep) eqn:Hc; [done|].
  apply ascii_eqb_false in Hc.
  destruct h; simpl; [|done].
  apply not_elem_of_cons. split; [congruence|done].
Qed.

Lemma path_split_tail (p : text) : (path_split p).2 = (cut_at_last_sep p).2.
Proof. unfold path_split. by destruct (cut_at_last_sep p). Qed.

Lemma startswith_sep_elem (s : text) : startswith_sep s = true -> sep ∈ s.
Proof.
  destruct s as [|c s]; [done|]. simpl. intros ->%ascii_eqb_true.
  apply list_elem_of_here.
Qed.

(** The two ways [os.path.join] glues a relative part to [a]. *)
Lemma path_join_relative (a b : text) :
  startswith_sep b = false ->
  path_join a b
  = a ++ (if bool_decide (a = []) || endswith_sep a then [] else [sep]) ++ b.
Proof.
  intros Hb. unfold path_join. rewrite Hb.
  by destruct (bool_decide (a = []) || endswith_sep a).
Qed.

Lemma path_join_relative_inj (a b b' : text) :
  startswith_sep b = false -> startswith_sep b' = false ->
  path_join a b = path_join a b' -> b = b'.
Proof.
  intros Hb Hb'. rewrite !path_join_relative by done.
  intros H. apply app_inv_head in H. by apply app_inv_head in H.
Qed.

Lemma save_name_relative (r : row) :
  startswith_sep (Filename r) = false -> startswith_sep (save_name r) = false.
Proof.
  unfold save_name. destruct (Filename r) as [|c f]; [done|]. done.
Qed.

(** X2.  Every key of the set [load_downloaded] returns is the output
    directory joined with a name that holds no separator.  So a row whose
    file name has a directory part (and is not absolute) is never in the
    set loaded for its own output directory, whatever the log holds. *)
Theorem ledger_keys_are_flat (args : arguments) (log : option text) :
  (forall k, k ∈ load_downloaded (arg_output args) log ->
     exists f, (sep ∉ f) /\ k = path_join (arg_output args) f)
  /\ forall r : row,
       startswith_sep (Filename r) = false -> sep ∈ save_name r ->
       save_path args r ∉ load_downloaded (arg_output args) log.
Proof.
  assert (forall k, k ∈ load_downloaded (arg_output args) log ->
            exists f, (sep ∉ f) /\ k = path_join (arg_output args) f) as Hflat.
  { intros k Hk. destruct log as [c|]; [|by apply not_elem_of_empty in Hk].
    apply elem_of_load_downloaded in Hk as (line & _ & _ & ->).
    eexists. split; [|done]. rewrite path_split_tail. apply cut_tail_no_sep. }
  split; [exact Hflat|].
  intros r Hrel Hnested Hin.
  destruct (Hflat _ Hin) as (f & Hf & Heq).
  unfold save_path in Heq.
  apply path_join_relative_inj in Heq.
  - apply Hf. by rewrite <- Heq.
  - by apply save_name_relative.
  - destruct (startswith_sep f) eqn:E; [|done].
    by apply startswith_sep_elem in E.
Qed.

Lemma ledger_keys_are_flat_witness :
  save_path live_args nested_row
    ∉ load_downloaded (arg_output live_args)
        (Some (str "out/sub/x.png" ++ [LF])).
Proof.
  apply (proj2 (ledger_keys_are_flat live_args
                  (Some (str "out/sub/x.png" ++ [LF]))) nested_row).
  - reflexivity.
  - apply (bool_decide_eq_true_1 _). vm_compute. reflexivity.
Defined.

Lemma cut_no_sep (t : text) : sep ∉ t -> cut_at_last_sep t = ([], t).
Proof.
  induction t as [|c t IH]; [done|]. intros Hc.
  apply not_elem_of_cons in Hc as [Hc Ht]. simpl. rewrite IH by done.
  by assert (ascii_eqb c sep = false) as -> by (by apply ascii_eqb_false).
Qed.

Lemma cut_app_sep (a t : text) :
  sep ∉ t -> cut_at_last_sep (a ++ sep :: t) = (a ++ [sep], t).
Proof.
  intros Ht. induction a as [|c a IH]; simpl.
  - rewrite cut_no_sep by done. by rewrite ?ascii_eqb_refl.
  - rewrite IH. destruct (ascii_eqb c sep); [done|].
    by destruct a.
Qed.

Lemma endswith_sep_snoc (s : text) :
  endswith_sep s = true -> exists a, s = a ++ [sep].
Proof.
  unfold endswith_sep. destruct (rev s) as [|c x] eqn:Hr; [done|].
  simpl. intros ->%ascii_eqb_true. exists (rev x).
  rewrite <- (rev_involutive s), Hr. done.
Qed.

(** The filename component of a save path made with a name that holds no
    separator is that name. *)
Lemma path_join_flat_tail (out name : text) :
  sep ∉ name -> (path_split (path_join out name)).2 = name.
Proof.
  intros Hn. rewrite path_split_tail.
  assert (startswith_sep name = false) as Hrel.
  { destruct (startswith_sep name) eqn:E; [|done].
    by apply startswith_sep_elem in E. }
  rewrite path_join_relative by done.
  destruct (bool_decide (out = [])) eqn:Ho; simpl.
  - apply bool_decide_eq_true in Ho as ->. simpl. by rewrite cut_no_sep.
  - destruct (endswith_sep out) eqn:He; simpl.
    + apply endswith_sep_snoc in He as [a ->].
      rewrite <- app_assoc. simpl. by rewrite cut_app_sep.
    + by rewrite cut_app_sep.
Qed.

(** A clean recorded path is read back under the key of its filename
    component. *)
Lemma recorded_key_loaded (root p : text) (log : option text)
    (later : list text) :
  p <> [] -> LF ∉ p -> CR ∉ p -> strip p = p -> terminated log ->
  path_join root (snd (path_split p))
    ∈ load_downloaded root (record_all (save_downloaded p log) later).
Proof.
  intros Hne Hlf Hcr Hs Hlog. unfold save_downloaded.
  rewrite record_all_content. apply elem_of_load_downloaded.
  exists (p ++ [LF]). rewrite strip_line by done. split; [|done].
  rewrite <- !app_assoc. simpl.
  apply file_lines_record; [|done..].
  destruct log as [c|]; [exact Hlog|by left].
Qed.

(** X3.  A row whose file name holds no separator and whose save path is
    clean, once recorded, is in the set any later run loads, whatever the
    output directory of that run: the later run stops the row at the
    already-downloaded check. *)
Theorem recorded_flat_row_is_skipped (args args2 : arguments) (r : row)
    (log : option text) (later : list text) :
  let p := save_path args r in
  let downloaded2 :=
    load_downloaded (arg_output args2)
      (record_all (save_downloaded p log) later) in
  sep ∉ save_name r -> LF ∉ p -> CR ∉ p -> strip p = p -> terminated log ->
  save_path args2 r ∈ downloaded2
  /\ forall (env2 : environment) (cfg2 : config) (c2 : summary) (w2 : world)
       (fs2 : nodes),
       makedirs (env_cwd env2) (w_fs w2) (dirname (save_path args2 r))
       = Some fs2 ->
       process_row env2 args2 cfg2 downloaded2 r c2 w2
       = Some (Returns (count_logged c2) (set_fs w2 fs2)).
Proof.
  intros p downloaded2 Hflat Hlf Hcr Hs Hlog.
  assert (save_path args2 r ∈ downloaded2) as Hin.
  { unfold downloaded2, save_path at 1.
    rewrite <- (path_join_flat_tail (arg_output args) (save_name r) Hflat).
    apply recorded_key_loaded; try done.
    intros Hnil. apply (f_equal (fun x => (path_split x).2)) in Hnil.
    unfold p, save_path in Hnil. rewrite path_join_flat_tail in Hnil by done.
    unfold save_name in Hnil. by destruct (Filename r). }
  split; [exact Hin|].
  intros env2 cfg2 c2 w2 fs2 Hm. unfold process_row. rewrite Hm.
  cbn beta iota zeta. by rewrite (bool_decide_eq_true_2 _ Hin).
Qed.

Lemma recorded_flat_row_is_skipped_witness :
  save_path dry_args flat_row
    ∈ load_downloaded (arg_output dry_args)
        (record_all (save_downloaded (save_path live_args flat_row) None) []).
Proof.
  apply (recorded_flat_row_is_skipped live_args dry_args flat_row None []).
  - apply (bool_decide_eq_false_1 _). vm_compute. reflexivity.
  - apply (bool_decide_eq_false_1 _). vm_compute. reflexivity.
  - apply (bool_decide_eq_false_1 _). vm_compute. reflexivity.
  - vm_compute. reflexivity.
  - exact I.
Defined.

(** ** More on streaming *)

Lemma write_chunk_frame (fs : nodes) (k k' : node_path) (chunk : text) :
  k' <> k -> write_chunk fs k chunk !! k' = fs !! k'.
Proof.
  intros Hne. unfold write_chunk.
  destruct (fs !! k) as [[c|]|]; try done. by rewrite lookup_insert_ne.
Qed.

Lemma stream_chunks_frame (k k' : node_path) (chunks : list (text * Q))
    (fs : nodes) (n : Z) (sp : Q) :
  k' <> k -> (stream_chunks k chunks fs n sp).1.1 !! k' = fs !! k'.
Proof.
  intros Hne. revert fs n sp.
  induction chunks as [|[chunk el] rest IH]; intros fs n sp; simpl; [done|].
  destruct (bool_decide (chunk = [])); [apply IH|].
  rewrite IH. by apply write_chunk_frame.
Qed.

Lemma stream_chunks_bytes (k : node_path) (chunks : list (text * Q))
    (fs : nodes) (n : Z) (sp : Q) :
  (stream_chunks k chunks fs n sp).1.2
  = n + Z.of_nat (length (concat (map fst chunks))).
Proof.
  revert fs n sp.
  induction chunks as [|[chunk el] rest IH]; intros fs n sp; simpl.
  - lia.
  - destruct (bool_decide (chunk = [])) eqn:He.
    + apply bool_decide_eq_true in He as ->. simpl. apply IH.
    + rewrite IH, length_app. lia.
Qed.

(** X4.  While a body is streamed into an open file the bytes counted are
    the bytes written: the file ends as what it held followed by all the
    chunks in order, [bytes_downloaded] has grown by the length of what was
    appended, and no other node of the file system has changed.  Empty
    chunks leave no trace. *)
Theorem stream_chunks_accounting (k : node_path) (chunks : list (text * Q))
    (fs : nodes) (n : Z) (sp : Q) (c : text) :
  fs !! k = Some (File c) ->
  let '(fs', bytes_downloaded, _) := stream_chunks k chunks fs n sp in
  exists c', fs' !! k = Some (File (c ++ c'))
    /\ c' = concat (map fst chunks)
    /\ bytes_downloaded = n + Z.of_nat (length c')
    /\ (forall k', k' <> k -> fs' !! k' = fs !! k')
    /\ stream_chunks k (filter (fun ce => ce.1 <> []) chunks) fs n sp
       = stream_chunks k chunks fs n sp.
Proof.
  intros Hk.
  pose proof (stream_chunks_spec k chunks fs n sp c Hk) as [Hc _].
  pose proof (stream_chunks_bytes k chunks fs n sp) as Hb.
  pose proof (fun k' => stream_chunks_frame k k' chunks fs n sp) as Hf.
  assert (stream_chunks k (filter (fun ce => ce.1 <> []) chunks) fs n sp
          = stream_chunks k chunks fs n sp) as Hfilter.
  { clear. revert fs n sp.
    induction chunks as [|[chunk el] rest IH]; intros fs n sp; [done|].
    rewrite filter_cons. simpl.
    destruct (decide (chunk <> [])) as [Hne|He].
    - simpl. rewrite (bool_decide_eq_false_2 _ Hne). apply IH.
    - apply dec_stable in He.
      rewrite (bool_decide_eq_true_2 _ He). apply IH. }
  destruct (stream_chunks k chunks fs n sp) as [[fs' b] sp'].
  simpl in *. by exists (concat (map fst chunks)).
Qed.

Lemma stream_chunks_accounting_witness :
  let '(fs', bytes_downloaded, _) :=
    stream_chunks [str "f"] [(str "ab", 1%Q); ([], 1%Q); (str "c", 2%Q)]
      {[ [str "f"] := File (str "x") ]} 0 0%Q in
  exists c', fs' !! [str "f"] = Some (File (str "x" ++ c'))
    /\ bytes_downloaded = 0 + Z.of_nat (length c').
Proof.
  pose proof (stream_chunks_accounting [str "f"]
                [(str "ab", 1%Q); ([], 1%Q); (str "c", 2%Q)]
                {[ [str "f"] := File (str "x") ]} 0 0%Q (str "x")) as H.
  destruct (stream_chunks _ _ _ _ _) as [[fs' b] sp'].
  destruct H as (c' & H1 & _ & H2 & _); [reflexivity|].
  by exists c'.
Defined.





(** ** More on the fetcher *)


Section Fetcher.
Context (env : environment) (url save_path : text) (max_retries : Z)
  (base_delay jitter : Q).


End Fetcher.


Section FirstSuccess.
Context (env : environment) (url save_path : text) (max_retries : Z)
  (base_delay jitter : Q).

Lemma reaches_stream_same (a b : nodes) (i : nat) :
  (is_Some (open_wb (env_cwd env) a save_path)
   <-> is_Some (open_wb (env_cwd env) b save_path)) ->
  reaches_stream env url save_path a i = reaches_stream env url save_path b i.
Proof.
  intros H. unfold reaches_stream.
  destruct (http_get env i url) as [|r]; [done|]. f_equal.
  by apply bool_decide_ext.
Qed.

Lemma attempt_succeeds_same (a b : nodes) (i : nat) :
  (is_Some (open_wb (env_cwd env) a save_path)
   <-> is_Some (open_wb (env_cwd env) b save_path)) ->
  attempt_succeeds env url save_path a i
  = attempt_succeeds env url save_path b i.
Proof.
  intros H. unfold attempt_succeeds. by rewrite (reaches_stream_same a b).
Qed.

(** Whether the destination can be opened does not change over an
    attempt. *)
Lemma try_download_open (sp : Q) (w : world) (b : bool) (sp1 : Q)
    (w1 : world) :
  try_download env url save_path sp w = (b, sp1, w1) ->
  is_Some (open_wb (env_cwd env) (w_fs w1) save_path)
  <-> is_Some (open_wb (env_cwd env) (w_fs w) save_path).
Proof.
  intros Ht.
  destruct (try_download_file _ _ _ _ _ _ _ _ Ht)
    as (_ & [(_ & -> & _)|(Hs & _ & Ho)]); [done|].
  split; [|done]. intros _. by eapply reaches_stream_open.
Qed.

(** An attempt returns exactly when it succeeds. *)
Lemma try_download_result (sp : Q) (w : world) (b : bool) (sp1 : Q)
    (w1 : world) :
  try_download env url save_path sp w = (b, sp1, w1) ->
  b = attempt_succeeds env url save_path (w_fs w) (w_requests w).
Proof.
  intros Ht. unfold attempt_succeeds.
  destruct (reaches_stream env url save_path (w_fs w) (w_requests w)) eqn:Hs.
  - destruct (try_download_stream env url save_path sp w Hs)
      as (r & Hg & _ & _ & Hb & _).
    rewrite Ht in Hb. simpl in Hb. by rewrite Hg.
  - destruct (try_download_idle env url save_path sp w Hs) as (w' & Ht' & _).
    rewrite Ht in Ht'. by injection Ht' as ->.
Qed.

Lemma download_loop_first_success (fuel : nat) (attempt : Z) (sp : Q)
    (w : world) (out : outcome (bool * Q)) :
  download_loop fuel env url save_path max_retries base_delay jitter
    attempt sp w = Some out ->
  first_success env url save_path w out.
Proof.
  revert fuel attempt sp w out.
  apply (download_loop_cases env url save_path max_retries base_delay jitter
           (fun _ w out => first_success env url save_path w out)).
  - intros attempt w _ i Hi. simpl in Hi. lia.
  - intros attempt sp w sp1 w1 _ Ht. unfold first_success. simpl.
    pose proof (try_download_result _ _ _ _ _ Ht) as Hb.
    destruct (try_download_file _ _ _ _ _ _ _ _ Ht)
      as (Hr & [(_ & _ & ?)|(_ & Hread & _)]); [done|].
    rewrite Hr. replace (S (w_requests w) - 1)%nat with (w_requests w) by lia.
    repeat split; try done; try lia.
  - intros attempt sp w sp1 w1 _ Ht i Hi. simpl in Hi.
    pose proof (try_download_result _ _ _ _ _ Ht) as Hb.
    destruct (try_download_file _ _ _ _ _ _ _ _ Ht) as (Hr & _).
    by replace i with (w_requests w) by lia.
  - intros attempt sp w sp1 w1 _ Ht _ i Hi. simpl in Hi.
    pose proof (try_download_result _ _ _ _ _ Ht) as Hb.
    destruct (try_download_file _ _ _ _ _ _ _ _ Ht) as (Hr & _).
    by replace i with (w_requests w) by lia.
  - intros attempt sp w sp1 w1 out _ Ht _ IH.
    pose proof (try_download_result _ _ _ _ _ Ht) as Hb.
    pose proof (try_download_open _ _ _ _ _ Ht) as Ho.
    destruct (try_download_file _ _ _ _ _ _ _ _ Ht) as (Hr & _).
    unfold first_success in *. simpl in IH.
    assert (forall i, attempt_succeeds env url save_path (w_fs w1) i
                      = attempt_succeeds env url save_path (w_fs w) i) as Hsame
      by (intros i; by apply attempt_succeeds_same).
    destruct out as [[[|] s] w'|e w']; simpl in *.
    + destruct IH as (Hn & Hlast & Hbefore & Hread).
      rewrite Hsame in Hlast. repeat split; try done; try lia.
      intros i Hi. destruct (decide (i = w_requests w)) as [->|Hne];
        [done|]. rewrite <- Hsame. apply Hbefore. lia.
    + intros i Hi. destruct (decide (i = w_requests w)) as [->|Hne];
        [done|]. rewrite <- Hsame. apply IH. lia.
    + intros i Hi. destruct (decide (i = w_requests w)) as [->|Hne];
        [done|]. rewrite <- Hsame. apply IH. lia.
Qed.
End FirstSuccess.

(** X7.  [download_file] stops at the first attempt that succeeds: it
    returns [True] exactly when its last GET got status 200, a
    [content-length] that parses, a destination that opens and a complete
    stream; no earlier attempt of the call did, no GET follows, and the
    destination holds the body of that last GET.  In every other outcome
    no attempt of the call succeeded. *)
Theorem download_file_stops_at_first_success (env : environment)
    (url save_path : text) (max_retries : Z) (base_delay jitter : Q)
    (w : world) :
  exists out,
    download_file env url save_path max_retries base_delay jitter w = Some out
    /\ let n := w_requests (world_of out) in
       match out with
       | Returns (true, _) w' =>
           (w_requests w < n)%nat
           /\ attempt_succeeds env url save_path (w_fs w) (n - 1) = true
           /\ (forall i, (w_requests w <= i < n - 1)%nat ->
                 attempt_succeeds env url save_path (w_fs w) i = false)
           /\ read_file (env_cwd env) (w_fs w') save_path
              = Some (body_bytes (http_get env (n - 1) url))
       | _ =>
           forall i, (w_requests w <= i < n)%nat ->
             attempt_succeeds env url save_path (w_fs w) i = false
       end.
Proof.
  destruct (download_file_total env url save_path max_retries base_delay
              jitter w) as [out Hout].
  exists out. split; [done|].
  exact (download_loop_first_success _ _ _ _ _ _ _ _ _ _ _ Hout).
Qed.

(** X8.  With a negative [max_retries] the fetcher makes no attempt at all:
    it returns [(False, 0)] at once and the world is unchanged.  A row that
    no skip check stops is then counted nowhere: the loop body only makes
    its directories and sleeps its pacing delay. *)
Theorem negative_retries_fetch_nothing (env : environment) (args : arguments)
    (cfg : config) (downloaded : gset text) (r : row) (c : summary)
    (w : world) :
  arg_max_retries args < 0 ->
  fetch env args cfg r w = Some (Returns (false, 0%Q) w)
  /\ forall fs,
       makedirs (env_cwd env) (w_fs w) (dirname (save_path args r)) = Some fs ->
       skipped env args cfg downloaded r fs = false ->
       process_row env args cfg downloaded r c w
       = Some (after_download env args r false c (set_fs w fs))
       /\ w_requests (world_of (after_download env args r false c
                                  (set_fs w fs))) = w_requests w
       /\ w_ledger (world_of (after_download env args r false c
                                (set_fs w fs))) = w_ledger w
       /\ w_fs (world_of (after_download env args r false c (set_fs w fs)))
          = fs.
Proof.
  intros Hneg.
  assert (forall w0, fetch env args cfg r w0 = Some (Returns (false, 0%Q) w0))
    as Hfetch.
  { intros w0. unfold fetch, download_file.
    replace (Z.to_nat (arg_max_retries args + 1)) with 0%nat by lia.
    cbn [download_loop].
    by replace (0 <=? arg_max_retries args) with false by lia. }
  split; [apply Hfetch|].
  intros fs Hm Hs.
  rewrite (process_row_fetches _ _ _ _ _ _ _ _ Hm Hs), Hfetch.
  split; [done|].
  by destruct (after_download_world env args r false c (set_fs w fs))
    as (-> & -> & -> & _).
Qed.

Lemma negative_retries_fetch_nothing_witness :
  fetch always_500
    {| arg_output := str "out"; arg_delay := 1; arg_jitter := 0;
       arg_max_retries := -1; arg_dry_run := false |}
    plain_config flat_row fresh_world
  = Some (Returns (false, 0%Q) fresh_world).
Proof.
  apply (negative_retries_fetch_nothing always_500
           {| arg_output := str "out"; arg_delay := 1; arg_jitter := 0;
              arg_max_retries := -1; arg_dry_run := false |}
           plain_config ∅ flat_row no_counts fresh_world).
  reflexivity.
Defined.

(** ** More on the driver *)


(** A row that a skip check stops moves exactly one of the four skip
    counters. *)
Lemma process_row_skipped_counts (env : environment) (args : arguments)
    (cfg : config) (downloaded : gset text) (r : row) (c : summary)
    (w : world) (fs : nodes) :
  makedirs (env_cwd env) (w_fs w) (dirname (save_path args r)) = Some fs ->
  skipped env args cfg downloaded r fs = true ->
  exists c', process_row env args cfg downloaded r c w
             = Some (Returns c' (set_fs w fs))
             /\ downloaded_count c' = downloaded_count c
             /\ skip_total c' = S (skip_total c).
Proof.
  intros Hm. unfold process_row, skipped, skip_total. rewrite Hm. simpl.
  destruct (bool_decide (save_path args r ∈ downloaded));
    [eexists; split; [done|]; simpl; lia|].
  destruct (path_exists _ _ _); [eexists; split; [done|]; simpl; lia|].
  destruct (truthy (local_check_dir cfg) && _);
    [eexists; split; [done|]; simpl; lia|].
  destruct (arg_dry_run args); [eexists; split; [done|]; simpl; lia|]. done.
Qed.



(** X10.  In a dry run nothing is fetched: whatever the rows, no GET is
    issued, no random number is drawn, nothing sleeps and the ledger is
    not written.  When the batch ends normally every row has been counted
    as skipped and [downloaded_count] has not moved; the only exception
    possible is the one of [os.makedirs]. *)
Theorem dry_run_fetches_nothing (env : environment) (args : arguments)
    (cfg : config) (downloaded : gset text) (rows : list row) (c : summary)
    (w : world) :
  arg_dry_run args = true ->
  exists out,
    process_rows env args cfg downloaded rows c w = Some out
    /\ w_requests (world_of out) = w_requests w
    /\ w_ledger (world_of out) = w_ledger w
    /\ w_draws (world_of out) = w_draws w
    /\ w_sleeps (world_of out) = w_sleeps w
    /\ match out with
       | Returns c' _ =>
           downloaded_count c' = downloaded_count c
           /\ skip_total c' = (skip_total c + length rows)%nat
       | Raises e _ => e = OSError
       end.
Proof.
  intros Hdry. revert c w.
  induction rows as [|r rows IH]; intros c w; simpl.
  - eexists. split; [done|]. simpl. repeat split; try done; lia.
  - destruct (makedirs (env_cwd env) (w_fs w) (dirname (save_path args r)))
      as [fs|] eqn:Hm.
    + assert (skipped env args cfg downloaded r fs = true) as Hs.
      { unfold skipped. rewrite Hdry. apply orb_true_r. }
      destruct (process_row_skipped_counts _ _ _ _ _ c _ _ Hm Hs)
        as (c' & -> & Hd & Hk).
      destruct (IH c' (set_fs w fs)) as (out & -> & H1 & H2 & H3 & H4 & H5).
      exists out. split; [done|]. simpl in *.
      repeat split; try done.
      destruct out as [c2 w2|e w2]; [|done].
      destruct H5 as [H5 H6]. split; [congruence|lia].
    + rewrite process_row_raises by done. by eexists.
Qed.

Lemma dry_run_fetches_nothing_witness :
  exists out,
    process_rows always_500 dry_args plain_config ∅
      [flat_row; nested_row; flat_row] no_counts fresh_world = Some out
    /\ w_requests (world_of out) = 0%nat
    /\ match out with
       | Returns c' _ => skip_total c' = 3%nat
       | Raises e _ => e = OSError
       end.
Proof.
  destruct (dry_run_fetches_nothing always_500 dry_args plain_config ∅
              [flat_row; nested_row; flat_row] no_counts fresh_world)
    as (out & Hout & Hr & _ & _ & _ & Hc).
  - reflexivity.
  - exists out. split; [exact Hout|]. split; [exact Hr|].
    destruct out as [c' w'|e w']; [exact (proj2 Hc)|exact Hc].
Defined.

(** A row that was processed had its directories made, and they are still
    there. *)
Lemma process_row_made (env : environment) (args : arguments) (cfg : config)
    (downloaded : gset text) (r : row) (c c1 : summary) (w w1 : world) :
  process_row env args cfg downloaded r c w = Some (Returns c1 w1) ->
  exists fs,
    makedirs (env_cwd env) (w_fs w) (dirname (save_path args r)) = Some fs
    /\ grows fs (w_fs w1).
Proof.
  intros Hp.
  destruct (makedirs (env_cwd env) (w_fs w) (dirname (save_path args r)))
    as [fs|] eqn:Hm.
  2:{ rewrite process_row_raises in Hp by done. done. }
  exists fs. split; [done|].
  destruct (skipped env args cfg downloaded r fs) eqn:Hs.
  - destruct (process_row_skipped _ _ _ _ _ c _ _ Hm Hs) as (c' & Hp' & _).
    rewrite Hp in Hp'. injection Hp' as -> ->. apply grows_refl.
  - rewrite (process_row_fetches _ _ _ _ _ _ _ _ Hm Hs) in Hp.
    destruct (fetch env args cfg r (set_fs w fs)) as [o|] eqn:Hf; [|done].
    unfold fetch, download_file in Hf.
    apply download_loop_frame in Hf as (_ & Hg & _).
    destruct o as [[b s] wd|e wd]; [|done]. injection Hp as Hp.
    destruct (after_download_world env args r b c wd) as (Hfs & _).
    rewrite Hp in Hfs. simpl in *. by rewrite Hfs.
Qed.

Lemma process_rows_made (env : environment) (args : arguments) (cfg : config)
    (downloaded : gset text) (rows : list row) (c c1 : summary)
    (w w1 : world) :
  process_rows env args cfg downloaded rows c w = Some (Returns c1 w1) ->
  forall r, r ∈ rows ->
    exists before made,
      makedirs (env_cwd env) before (dirname (save_path args r)) = Some made
      /\ grows made (w_fs w1).
Proof.
  revert c w. induction rows as [|r0 rows IH]; intros c w; simpl.
  - intros _ r Hr. by apply not_elem_of_nil in Hr.
  - destruct (process_row env args cfg downloaded r0 c w) as [[c' w'|e w']|]
      eqn:Hp; [|done..].
    intros Hrest r Hr. apply elem_of_cons in Hr as [->|Hr].
    + destruct (process_row_made _ _ _ _ _ _ _ _ _ Hp) as (fs & Hm & Hg).
      exists (w_fs w), fs. split; [done|].
      eapply grows_trans; [exact Hg|].
      by apply (process_rows_grows _ _ _ _ _ _ _ _ Hrest).
    + by eapply IH.
Qed.

(** A row whose directories were made before and whose save path is in
    the ledger set or exists is stopped by one of the first two checks and
    leaves the world alone. *)
Lemma process_row_known (env : environment) (args : arguments) (cfg : config)
    (downloaded : gset text) (r : row) (c : summary) (w : world)
    (before made : nodes) :
  makedirs (env_cwd env) before (dirname (save_path args r)) = Some made ->
  grows made (w_fs w) ->
  save_path args r ∈ downloaded
  \/ path_exists (env_cwd env) (w_fs w) (save_path args r) = true ->
  process_row env args cfg downloaded r c w
  = Some (Returns (if bool_decide (save_path args r ∈ downloaded)
                   then count_logged c else count_exists_output c) w).
Proof.
  intros Hm Hg Hk. unfold process_row.
  rewrite (makedirs_again _ _ _ _ _ Hm Hg), set_fs_same.
  destruct (bool_decide (save_path args r ∈ downloaded)) eqn:Hd; [done|].
  apply bool_decide_eq_false in Hd. destruct Hk as [? | ->]; done.
Qed.

(** X11.  Running the same manifest again.  After a batch that ended
    normally, a later run over the same rows in which every save path is in
    the ledger set or exists fetches nothing and changes nothing: every row
    is stopped by the already-downloaded or the exists-in-output check, no
    directory is made, no GET is issued, the ledger is not written. *)
Theorem rerun_fetches_nothing (env env2 : environment) (args : arguments)
    (cfg cfg2 : config) (downloaded downloaded2 : gset text)
    (rows : list row) (c c1 c2 : summary) (w w1 w2 : world) :
  process_rows env args cfg downloaded rows c w = Some (Returns c1 w1) ->
  env_cwd env2 = env_cwd env ->
  grows (w_fs w1) (w_fs w2) ->
  (forall r, r ∈ rows ->
     save_path args r ∈ downloaded2
     \/ path_exists (env_cwd env) (w_fs w2) (save_path args r) = true) ->
  exists c3,
    process_rows env2 args cfg2 downloaded2 rows c2 w2
    = Some (Returns c3 w2)
    /\ downloaded_count c3 = downloaded_count c2
    /\ (skipped_logged c3 + skipped_exists_output c3
        = skipped_logged c2 + skipped_exists_output c2 + length rows)%nat
    /\ skipped_exists_local c3 = skipped_exists_local c2
    /\ skipped_dry_run c3 = skipped_dry_run c2.
Proof.
  intros Hrun Hcwd Hg Hknown.
  pose proof (process_rows_made _ _ _ _ _ _ _ _ _ Hrun) as Hmade.
  clear Hrun. revert c2.
  induction rows as [|r rows IH]; intros c2; simpl.
  - exists c2. repeat split; try done; lia.
  - destruct (Hmade r) as (before & made & Hm & Hg1);
      [apply list_elem_of_here|].
    rewrite (process_row_known env2 args cfg2 downloaded2 r c2 w2 before made).
    + destruct (IH (fun r Hr => Hknown r (list_elem_of_further _ _ _ Hr))
                  (fun r Hr => Hmade r (list_elem_of_further _ _ _ Hr))
                  (if bool_decide (save_path args r ∈ downloaded2)
                   then count_logged c2 else count_exists_output c2))
        as (c3 & -> & H1 & H2 & H3 & H4).
      exists c3. split; [done|].
      destruct (bool_decide (save_path args r ∈ downloaded2)); simpl in *;
        repeat split; try done; lia.
    + by rewrite Hcwd.
    + by eapply grows_trans.
    + rewrite Hcwd. apply Hknown, list_elem_of_here.
Qed.

Lemma rerun_fetches_nothing_witness :
  exists w1 c3,
    process_rows flaky_server live_args plain_config ∅ [flat_row] no_counts
      fresh_world = Some (Returns (count_downloaded no_counts) w1)
    /\ process_rows always_500 live_args plain_config ∅ [flat_row] no_counts
         w1 = Some (Returns c3 w1)
    /\ downloaded_count c3 = 0%nat.
Proof.
  destruct (process_rows flaky_server live_args plain_config ∅ [flat_row]
              no_counts fresh_world) as [[c1 w1|e w1]|] eqn:H1;
    try (vm_compute in H1; discriminate).
  assert (c1 = count_downloaded no_counts) as ->.
  { vm_compute in H1. by injection H1 as <- _. }
  assert (path_exists [] (w_fs w1) (save_path live_args flat_row) = true)
    as Hex.
  { vm_compute in H1. injection H1 as <-. vm_compute. reflexivity. }
  destruct (rerun_fetches_nothing flaky_server always_500 live_args
              plain_config plain_config ∅ ∅ [flat_row] no_counts
              (count_downloaded no_counts) no_counts fresh_world w1 w1)
    as (c3 & H3 & Hd & _).
  - exact H1.
  - reflexivity.
  - apply grows_refl.
  - intros r Hr. apply list_elem_of_singleton in Hr as ->. right. exact Hex.
  - exists w1, c3. split; [reflexivity|]. split; [exact H3|exact Hd].
Defined.

(** ** The reporter helpers *)

Lemma add_log_step (timestamp message : text) (b : list text) :
  (length b <= 20)%nat ->
  let e := timestamp ++ str " " ++ message in
  (add_log timestamp message b).1
  = drop (length (b ++ [e]) - 20) (b ++ [e])
  /\ (length (add_log timestamp message b).1 <= 20)%nat.
Proof.
  intros Hb e. unfold add_log. fold e. cbn [fst].
  rewrite length_app. simpl.
  destruct (20 <? length b + 1)%nat eqn:Hc.
  - apply Nat.ltb_lt in Hc.
    replace (length b + 1 - 20)%nat with 1%nat by lia.
    split; [done|]. rewrite length_drop, length_app. simpl. lia.
  - apply Nat.ltb_ge in Hc.
    replace (length b + 1 - 20)%nat with 0%nat by lia.
    split; [done|]. rewrite length_app. simpl. lia.
Qed.

(** X12.  The rolling log of the display: after any number of calls of
    [add_log] the buffer holds at most 20 entries, and they are the last
    ones of everything that was logged, in the order logged, each being the
    time stamp, a space and the message. *)
Theorem add_log_keeps_last_20 (log_messages : list text)
    (entries : list (text * text)) :
  (length log_messages <= 20)%nat ->
  let all :=
    log_messages ++ map (fun tm => tm.1 ++ str " " ++ tm.2) entries in
  add_logs log_messages entries = drop (length all - 20) all
  /\ (length (add_logs log_messages entries) <= 20)%nat.
Proof.
  revert log_messages.
  induction entries as [|[t m] entries IH]; intros b Hb all; subst all.
  - simpl. rewrite app_nil_r.
    replace (length b - 20)%nat with 0%nat by lia. by split.
  - destruct (add_log_step t m b Hb) as [Hstep Hlen].
    cbn zeta in Hstep, Hlen.
    specialize (IH _ Hlen). cbn zeta in IH. destruct IH as [IH1 IH2].
    change (add_logs b ((t, m) :: entries))
      with (add_logs (add_log t m b).1 entries).
    cbn [map fst snd]. split; [|exact IH2].
    rewrite IH1, Hstep. clear IH1 IH2 Hstep Hlen.
    set (e := t ++ str " " ++ m).
    set (rest := map (fun tm => tm.1 ++ str " " ++ tm.2) entries).
    replace (b ++ e :: rest) with ((b ++ [e]) ++ rest)
      by (by rewrite <- app_assoc).
    set (X := b ++ [e]).
    assert (length X <= 21)%nat as HX
      by (unfold X; rewrite length_app; simpl; lia).
    rewrite <- (drop_app_le X rest (length X - 20)) by lia.
    rewrite drop_drop. f_equal.
    rewrite length_drop, !length_app. lia.
Qed.

Lemma add_log_keeps_last_20_witness :
  add_logs [] (replicate 22 (str "12:00", str "m")
               ++ [(str "12:01", str "last")])
  = replicate 19 (str "12:00 m") ++ [str "12:01 last"].
Proof.
  rewrite (proj1 (add_log_keeps_last_20 []
                    (replicate 22 (str "12:00", str "m")
                     ++ [(str "12:01", str "last")])
                    (Nat.le_0_l 20))).
  reflexivity.
Defined.

(** X13.  The unit [human_readable_speed] picks and the number it prints
    with it: below 1024 the speed itself in B/s (negative speeds included),
    from 1024 up to 1024 * 1024 the speed over 1024 in KB/s, a number from
    1 up to 1024, and from there on the speed over 1024 * 1024 in MB/s, a
    number that is at least 1. *)
Theorem speed_unit_ranges (s : Q) :
  let '(v, u) := human_readable_speed s in
  match u with
  | B_per_s => (s < 1024)%Q /\ v = s
  | KB_per_s =>
      (1024 <= s)%Q /\ (s < 1024 * 1024)%Q
      /\ (1 <= v)%Q /\ (v < 1024)%Q /\ (v * 1024 == s)%Q
  | MB_per_s =>
      (1024 * 1024 <= s)%Q /\ (1 <= v)%Q /\ (v * (1024 * 1024) == s)%Q
  end.
Proof.
  unfold human_readable_speed.
  destruct (Qltb s 1024) eqn:H1.
  { apply Qltb_true in H1. by split. }
  apply Qltb_false in H1.
  destruct (Qltb s (1024 * 1024)) eqn:H2.
  - apply Qltb_true in H2. repeat split; try done.
    + apply Qle_shift_div_l; [done|]. by rewrite Qmult_1_l.
    + by apply Qlt_shift_div_r.
    + field.
  - apply Qltb_false in H2. repeat split; try done.
    + apply Qle_shift_div_l; [done|]. by rewrite Qmult_1_l.
    + field.
Qed.

(** ** The local directory and the sleeps of a row *)

Lemma download_loop_glob (fuel : nat) (env : environment)
    (g : nodes -> text -> list text) (url save_path : text) (max_retries : Z)
    (base_delay jitter : Q) (attempt : Z) (sp : Q) (w : world) :
  download_loop fuel (with_glob env g) url save_path max_retries base_delay
    jitter attempt sp w
  = download_loop fuel env url save_path max_retries base_delay jitter
      attempt sp w.
Proof.
  revert attempt sp w.
  induction fuel as [|fuel IH]; intros attempt sp w; [done|].
  cbn [download_loop].
  change (try_download (with_glob env g) url save_path sp w)
    with (try_download env url save_path sp w).
  destruct (attempt <=? max_retries); [|done].
  destruct (try_download env url save_path sp w) as [[b sp1] w1].
  destruct b; [done|].
  change (random_uniform (with_glob env g) 0 jitter w1)
    with (random_uniform env 0 jitter w1).
  destruct (attempt + 1 <=? max_retries); [|apply IH].
  destruct (random_uniform env 0 jitter w1) as [j w2].
  destruct (time_sleep _ w2); [apply IH|done].
Qed.

(** X14.  Without a local check directory, that is with the key absent or
    empty in the configuration, [glob.glob] is never consulted: the batch
    runs the same whatever [glob] would have answered. *)
Theorem unconfigured_local_dir_is_never_probed (env : environment)
    (g : nodes -> text -> list text) (args : arguments) (cfg : config)
    (downloaded : gset text) (rows : list row) (c : summary) (w : world) :
  local_check_dir cfg = None \/ local_check_dir cfg = Some [] ->
  process_rows (with_glob env g) args cfg downloaded rows c w
  = process_rows env args cfg downloaded rows c w.
Proof.
  intros Hcfg.
  assert (truthy (local_check_dir cfg) = false) as Ht
    by (by destruct Hcfg as [-> | ->]).
  revert c w. induction rows as [|r rows IH]; intros c w; [done|].
  cbn [process_rows].
  assert (process_row (with_glob env g) args cfg downloaded r c w
          = process_row env args cfg downloaded r c w) as ->.
  { unfold process_row. rewrite Ht. cbn [andb].
    change (env_cwd (with_glob env g)) with (env_cwd env).
    destruct (makedirs _ _ _) as [fs|]; [|done]. cbn zeta.
    destruct (bool_decide _); [done|].
    destruct (path_exists _ _ _); [done|].
    destruct (arg_dry_run args); [done|].
    unfold download_file. rewrite download_loop_glob.
    destruct (download_loop _ _ _ _ _ _ _ _ _ _) as [[[b s] wd|e wd]|];
      reflexivity. }
  destruct (process_row env args cfg downloaded r c w) as [[c1 w1|e w1]|];
    [apply IH|done..].
Qed.

Lemma unconfigured_local_dir_is_never_probed_witness :
  process_rows (with_glob always_500 (fun _ pattern => [pattern])) dry_args
    plain_config ∅ [flat_row] no_counts fresh_world
  = process_rows always_500 dry_args plain_config ∅ [flat_row] no_counts
      fresh_world.
Proof.
  apply (unconfigured_local_dir_is_never_probed always_500
           (fun _ pattern => [pattern]) dry_args plain_config ∅ [flat_row]
           no_counts fresh_world).
  by left.
Defined.




